(** * Genres: a query facade over the Apps collection, and the image uploader

    A shallow embedding of [app/lib/collections/genres.js] and of the
    [imageUploader] upload directive of the Sandstorm app market.

    JavaScript objects are finite maps from property names to values
    (stdpp's [gmap string value]).  Objects that the code receives from its
    caller, creates with [{}] or extends in place live in a store, and the
    functions that touch them are written in a small state monad over that
    store, so that sharing between the caller and [Genres] is visible.

    The Meteor collections ([Apps], [Categories], [Meteor.users]), the
    session, the browser storage and the router are gathered in a record
    [env] that every function receives explicitly. *)

From Stdlib Require Import ZArith Lia Permutation Sorted.
From stdpp Require Import base option list strings gmap fin_maps pretty.

Local Open Scope string_scope.
Local Open Scope Z_scope.
Local Open Scope list_scope.
Local Set Warnings "-register-all".

(** ** JavaScript values and objects *)

Inductive value : Type :=
| VUndefined
| VNull
| VBool (b : bool)
| VNum (n : Z)
| VStr (s : string)
| VArr (xs : list value)
| VObj (o : gmap string value).

Abbreviation obj := (gmap string value).

(** What a caller can pass where an object is expected: nothing
    ([undefined]), [null], or a reference to an object of the store. *)
Inductive jsarg : Type :=
| Undefined
| Null
| Ref (l : nat).

(** [a || b] on optional strings: [undefined], [null] and the empty string
    are falsy. *)
Definition js_or (a b : option string) : option string :=
  match a with
  | Some s => if String.eqb s "" then b else Some s
  | None => b
  end.

(** [xs.concat(v)]: an array argument is spliced, any other value is
    appended as one element. *)
Definition concat (xs : list value) (v : value) : list value :=
  match v with
  | VArr ys => xs ++ ys
  | _ => xs ++ [v]
  end.

(** [_.keys(o)]. The enumeration order of a [gmap] stands for the
    property order of the object. *)
Definition keys {A : Type} (m : gmap string A) : list string :=
  (map_to_list m).*1.

(** [_.reduce(o, f, memo)] over the properties of an object, in the
    order of [_.keys]: [f] receives the accumulator, the property value
    and the property name. *)
Definition reduce {A B : Type} (m : gmap string A)
    (f : B → A → string → B) (memo : B) : B :=
  foldl (λ acc kv, f acc kv.2 kv.1) memo (map_to_list m).

(** [Array.prototype.sort(cmp)], as an insertion sort. *)
Fixpoint insert_sorted {A : Type} (cmp : A → A → Z) (x : A) (l : list A)
    : list A :=
  match l with
  | [] => [x]
  | y :: l' => if cmp x y <=? 0 then x :: l else y :: insert_sorted cmp x l'
  end.

Definition array_sort {A : Type} (cmp : A → A → Z) (l : list A) : list A :=
  foldr (insert_sorted cmp) [] l.

(** One step of [_.extend]: every own property of the source is assigned
    to the destination; a source that is not an object ([null],
    [undefined]) is skipped. *)
Definition extend_obj (dst : obj) (src : option obj) : obj :=
  match src with
  | Some o => o ∪ dst
  | None => dst
  end.

(** ** The store and its monad *)

Abbreviation store := (list obj).

Definition St (A : Type) : Type := store → A * store.

#[global] Instance St_ret : MRet St := λ A a s, (a, s).
#[global] Instance St_bind : MBind St :=
  λ A B f m s, let '(a, s') := m s in f a s'.

(** The object literal [{}], or any freshly built object. *)
Definition new_object (o : obj) : St nat :=
  λ s, (length s, s ++ [o]).

Definition read (l : nat) : St obj :=
  λ s, (default ∅ (s !! l), s).

(** [x || {}] for an object argument. *)
Definition or_empty (a : jsarg) : St nat :=
  match a with
  | Ref l => mret l
  | Undefined | Null => new_object ∅
  end.

(** [_.extend(dst, src1, ..., srcn)]: the destination is updated in place
    and returned. *)
Definition extend (dst : nat) (srcs : list (option obj)) : St nat :=
  λ s, (dst, alter (λ d, foldl extend_obj d srcs) dst s).

(** The object an argument denotes in a store, if any. *)
Definition deref (s : store) (a : jsarg) : option obj :=
  match a with
  | Ref l => s !! l
  | Undefined | Null => None
  end.

(** ** The collections and the ambient environment *)

Record versionInfo := { dateTime : Z }.

Record appDetails := { version : versionInfo }.

Record user := {
  user_id : string;
  installedApps : gmap string appDetails
}.

Record category := {
  cat_name : string;
  cat_fields : obj
}.

(** Modelled from the spec: the Application entity of the catalog, whose
    schema and [latestVersion()] helper are defined outside this module. *)
Record app := {
  app_id : string;
  author : string;
  categories : list string;
  installCount : Z;
  installCountThisWeek : Z;
  createdAt : Z;
  lastUpdated : Z;
  approved : Z;
  latestVersion : versionInfo
}.

Record env := {
  isClient : bool;               (* Meteor.isClient *)
  hasWindow : bool;              (* typeof window !== 'undefined' *)
  currentUserId : option string; (* Meteor.userId() *)
  users : list user;             (* Meteor.users *)
  Apps : list app;
  Categories : list category;
  sandstormInstalledApps : value; (* amplify.store('sandstormInstalledApps') *)
  routeAuthorId : option string; (* FlowRouter.getParam('authorId') *)
  Apps_before : value → app → app → bool
    (* the order of the catalog store under a sort specifier: whether it
       yields the first document no later than the second *)
}.

(** The invocation context a genre function is applied to ([this]). An
    omitted context has neither property. *)
Record context := {
  this_userId : option string;   (* this.userId *)
  this_authorId : option string  (* this.authorId *)
}.

Definition noContext : context :=
  {| this_userId := None; this_authorId := None |}.

(** *** Queries on the collections *)

(** The document a query sees for an application. *)
Definition app_doc (a : app) : obj :=
  list_to_map [
    ("_id", VStr (app_id a));
    ("author", VStr (author a));
    ("categories", VArr (VStr <$> categories a));
    ("installCount", VNum (installCount a));
    ("installCountThisWeek", VNum (installCountThisWeek a));
    ("createdAt", VNum (createdAt a));
    ("lastUpdated", VNum (lastUpdated a));
    ("approved", VNum (approved a))
  ].

Definition app_field (a : app) (k : string) : value :=
  default VUndefined (app_doc a !! k).

Definition prim_eqb (a b : value) : bool :=
  match a, b with
  | (VUndefined | VNull), (VUndefined | VNull) => true
  | VBool x, VBool y => Bool.eqb x y
  | VNum x, VNum y => Z.eqb x y
  | VStr x, VStr y => String.eqb x y
  | _, _ => false
  end.

(** A literal matches a field that equals it, or an array field that
    contains it. *)
Definition value_matches (lit fv : value) : bool :=
  match fv with
  | VArr ys => existsb (prim_eqb lit) ys
  | _ => prim_eqb lit fv
  end.

(** A field condition is a literal or an [{$in: [...]}] membership test. *)
Definition cond_matches (cond fv : value) : bool :=
  match cond with
  | VObj ops =>
      match ops !! "$in" with
      | Some (VArr xs) => existsb (λ x, value_matches x fv) xs
      | _ => false
      end
  | _ => value_matches cond fv
  end.

(** Modelled from the spec: the catalog store filters on top-level fields,
    by equality or by [$in] membership; every condition of the selector
    must hold. *)
Definition doc_matches (sel : obj) (a : app) : bool :=
  forallb (λ kc, cond_matches kc.2 (app_field a kc.1)) (map_to_list sel).

(** Modelled from the spec: the documents a selector selects, in the
    natural order of the catalog. A selector that is not an object
    ([null]) matches nothing; the empty selector matches everything. *)
Definition run_query (e : env) (sel : option obj) : list app :=
  match sel with
  | Some o => filter (λ a, doc_matches o a) (Apps e)
  | None => []
  end.

(** Modelled from the spec: the store honours the sort option. Without
    options, or without a [sort] specifier in them, the documents keep
    the natural order; under a specifier they are sorted by the store's
    order for it, documents that it does not separate keeping their
    order. Paging options are not modelled. *)
Definition sort_docs (e : env) (options : option obj) (docs : list app)
    : list app :=
  match options ≫= (.!! "sort") with
  | None | Some VUndefined | Some VNull => docs
  | Some spec =>
      array_sort (λ a b, if Apps_before e spec a b then 0 else 1) docs
  end.

(** Modelled from the spec: the documents a query yields, in order. *)
Definition find_docs (e : env) (sel options : option obj) : list app :=
  sort_docs e options (run_query e sel).

(** What [Apps.find(selector, options)] was called with, and the
    documents the cursor yields. *)
Record cursor := {
  find_selector : jsarg;
  find_options : jsarg;
  fetch : list app
}.

Definition Apps_find (e : env) (selector options : jsarg) : St cursor :=
  λ s, ({| find_selector := selector;
           find_options := options;
           fetch := find_docs e (deref s selector) (deref s options) |}, s).

Definition Apps_findOne (e : env) (selector options : jsarg) : St (option app) :=
  λ s, (head (find_docs e (deref s selector) (deref s options)), s).

(** [Apps.findOne(appId)]: lookup by [_id]; a falsy id finds nothing. *)
Definition Apps_findOne_id (e : env) (appId : string) : option app :=
  if String.eqb appId "" then None
  else find (λ a, String.eqb (app_id a) appId) (Apps e).

(** [Categories.findOne({name: name})]. *)
Definition Categories_findOne (e : env) (name : string) : option category :=
  find (λ c, String.eqb (cat_name c) name) (Categories e).

(** [Meteor.users.findOne(userId)]. *)
Definition users_findOne (e : env) (userId : option string) : option user :=
  match userId with
  | Some id =>
      if String.eqb id "" then None
      else find (λ u, String.eqb (user_id u) id) (users e)
  | None => None
  end.

(** ** Utility functions *)

Definition getUser (e : env) (this : context) (userId : option string)
    : option user :=
  let userId := js_or userId (this_userId this) in
  let userId := if isClient e then js_or userId (currentUserId e) else userId in
  users_findOne e userId.

(** ** extraGenres *)

(** A [selector] or [options] property of an extra genre: not defined, an
    object, or a function of the invocation context. A function receives
    [this] and its [userId] parameter and returns an object or [null]. *)
Inductive genreField : Type :=
| Absent
| Static (o : obj)
| Computed (f : env → context → option string → option obj).

Record extraGenre := {
  eg_name : string;
  eg_selector : genreField;
  eg_options : genreField;
  eg_priority : Z;
  eg_showSummary : bool
}.

Definition id_in (ids : list value) : obj :=
  {[ "_id" := VObj {[ "$in" := VArr ids ]} ]}.

Definition Installed_selector (e : env) (this : context)
    (userId : option string) : option obj :=
  let user := getUser e this userId in
  let allInstalledApps := [] in
  let allInstalledApps :=
    if hasWindow e then concat allInstalledApps (sandstormInstalledApps e)
    else allInstalledApps in
  let allInstalledApps :=
    match user with
    | Some user =>
        concat allInstalledApps (VArr (VStr <$> keys (installedApps user)))
    | None => allInstalledApps
    end in
  Some (id_in allInstalledApps).

(** The ids pushed by the [_.reduce] of "Updates Available". *)
Definition updatesAvailable_ids (e : env) (user : user) : list string :=
  reduce (installedApps user) (λ idList appDetails appId,
    match Apps_findOne_id e appId with
    | Some current =>
        if dateTime (version appDetails) <? dateTime (latestVersion current)
        then idList ++ [appId] else idList
    | None => idList
    end) [].

Definition UpdatesAvailable_selector (e : env) (this : context)
    (userId : option string) : option obj :=
  match getUser e this userId with
  | None => None
  | Some user => Some (id_in (VStr <$> updatesAvailable_ids e user))
  end.

(** The ids pushed by the [_.reduce] of "No Updates". *)
Definition noUpdates_ids (e : env) (user : user) : list string :=
  reduce (installedApps user) (λ idList appDetails appId,
    match Apps_findOne_id e appId with
    | Some current =>
        if dateTime (version appDetails) >=? dateTime (latestVersion current)
        then idList ++ [appId] else idList
    | None => idList
    end) [].

Definition NoUpdates_selector (e : env) (this : context)
    (userId : option string) : option obj :=
  match getUser e this userId with
  | None => None
  | Some user => Some (id_in (VStr <$> noUpdates_ids e user))
  end.

Definition AppsByMe_selector (e : env) (this : context)
    (userId : option string) : option obj :=
  match getUser e this userId with
  | None => None
  | Some user => Some {[ "author" := VStr (user_id user) ]}
  end.

Definition AppsByAuthor_selector (e : env) (this : context)
    (_ : option string) : option obj :=
  Some {[ "author" :=
    match js_or (this_authorId this) (routeAuthorId e) with
    | Some a => VStr a
    | None => VUndefined
    end ]}.

Definition sort_desc (field : string) : obj :=
  {[ "sort" := VObj {[ field := VNum (-1) ]} ]}.

Definition extraGenres : list extraGenre := [
  {| eg_name := "All";
     eg_selector := Static ∅; eg_options := Static ∅;
     eg_priority := 1; eg_showSummary := false |};
  {| eg_name := "Popular";
     eg_selector := Static ∅; eg_options := Static (sort_desc "installCount");
     eg_priority := 0; eg_showSummary := true |};
  {| eg_name := "New";
     eg_selector := Static ∅; eg_options := Static (sort_desc "createdAt");
     eg_priority := 1; eg_showSummary := false |};
  {| eg_name := "New & Updated";
     eg_selector := Static ∅; eg_options := Static (sort_desc "lastUpdated");
     eg_priority := 0; eg_showSummary := true |};
  {| eg_name := "This Week";
     eg_selector := Static ∅;
     eg_options := Static (sort_desc "installCountThisWeek");
     eg_priority := 0; eg_showSummary := false |};
  {| eg_name := "Installed";
     eg_selector := Computed Installed_selector; eg_options := Static ∅;
     eg_priority := 2; eg_showSummary := false |};
  {| eg_name := "Updates Available";
     eg_selector := Computed UpdatesAvailable_selector; eg_options := Absent;
     eg_priority := 0; eg_showSummary := false |};
  {| eg_name := "No Updates";
     eg_selector := Computed NoUpdates_selector; eg_options := Absent;
     eg_priority := 0; eg_showSummary := false |};
  {| eg_name := "Apps By Me";
     eg_selector := Computed AppsByMe_selector; eg_options := Absent;
     eg_priority := 0; eg_showSummary := false |};
  {| eg_name := "Apps By Author";
     eg_selector := Computed AppsByAuthor_selector; eg_options := Absent;
     eg_priority := 0; eg_showSummary := false |}
].

(** [_.findWhere(extraGenres, {name: name})]. *)
Definition findWhere_name (l : list extraGenre) (name : string)
    : option extraGenre :=
  find (λ g, String.eqb (eg_name g) name) l.

(** [if (_.isFunction(f)) f = f.apply(context)]: a function is applied to
    the context with no argument; an object is kept; [None] is a value
    that is not an object ([undefined] or [null]). *)
Definition invoke (f : genreField) (e : env) (context : context)
    : option obj :=
  match f with
  | Absent => None
  | Static o => Some o
  | Computed fn => fn e context None
  end.

Record params := {
  params_selector : nat;
  params_options : nat
}.

Definition invokeGenreFunctions (e : env) (extraGenre : extraGenre)
    (origSelector origOptions : nat) (context : context) : St params :=
  let eGenSelector := invoke (eg_selector extraGenre) e context in
  let eGenOptions := invoke (eg_options extraGenre) e context in
  sel ← new_object ∅;
  origSel ← read origSelector;
  sel ← extend sel [Some origSel; eGenSelector];
  opt ← new_object ∅;
  origOpt ← read origOptions;
  opt ← extend opt [Some origOpt; eGenOptions];
  mret {| params_selector := sel; params_options := opt |}.

(** ** Genres *)

(** A genre descriptor: an extra genre or a category document. *)
Inductive genre : Type :=
| GExtra (g : extraGenre)
| GCategory (c : category).

Definition genre_name (g : genre) : string :=
  match g with
  | GExtra x => eg_name x
  | GCategory c => cat_name c
  end.

(** The options of [getAll]. *)
Record getAllOptions := {
  opt_where : option (list (string * value));
  opt_filter : option (genre → bool);
  opt_iteratee : option (genre → option Z)
}.

Definition noOptions : getAllOptions :=
  {| opt_where := None; opt_filter := None; opt_iteratee := None |}.

(** *** Underscore helpers over descriptors *)

(** [a === b] where [b] comes from an attribute object: primitives are
    compared by value; an array or an object is a reference of its own and
    is identical to nothing else. *)
Definition strict_eqb (a b : value) : bool :=
  match a, b with
  | VUndefined, VUndefined => true
  | VNull, VNull => true
  | VBool x, VBool y => Bool.eqb x y
  | VNum x, VNum y => Z.eqb x y
  | VStr x, VStr y => String.eqb x y
  | _, _ => false
  end.

(** [g[k]] for a descriptor; [None] stands for a property that holds an
    object or a function. *)
Definition genre_prop (g : genre) (k : string) : option value :=
  match g with
  | GExtra x =>
      if String.eqb k "name" then Some (VStr (eg_name x))
      else if String.eqb k "priority" then Some (VNum (eg_priority x))
      else if String.eqb k "showSummary" then Some (VBool (eg_showSummary x))
      else if String.eqb k "selector" then
        match eg_selector x with Absent => Some VUndefined | _ => None end
      else if String.eqb k "options" then
        match eg_options x with Absent => Some VUndefined | _ => None end
      else Some VUndefined
  | GCategory c =>
      if String.eqb k "name" then Some (VStr (cat_name c))
      else Some (default VUndefined (cat_fields c !! k))
  end.

(** [_.where(list, attrs)]: nothing for an empty [attrs]; otherwise the
    descriptors whose properties are identical to every key-value pair
    of [attrs]. *)
Definition where_ (l : list genre) (attrs : list (string * value))
    : list genre :=
  match attrs with
  | [] => []
  | _ :: _ =>
      List.filter (λ g,
        forallb (λ kv,
          match genre_prop g kv.1 with
          | Some v => strict_eqb kv.2 v
          | None => false
          end) attrs) l
  end.

(** [_.sortBy(list, iteratee)] tags every value with its index and its
    criteria, sorts the tagged values and plucks the values. *)
Record ranked (A : Type) := Ranked {
  r_value : A;
  r_index : nat;
  r_criteria : option Z
}.
Arguments Ranked {A} _ _ _.
Arguments r_value {A} _.
Arguments r_index {A} _.
Arguments r_criteria {A} _.

(** [a > b] on criteria; a comparison with [undefined] is false. *)
Definition crit_gtb (a b : option Z) : bool :=
  match a, b with
  | Some x, Some y => y <? x
  | _, _ => false
  end.

Definition is_undefined (a : option Z) : bool :=
  match a with None => true | Some _ => false end.

(** The comparator of [_.sortBy]. *)
Definition sortBy_cmp {A : Type} (left right : ranked A) : Z :=
  let a := r_criteria left in
  let b := r_criteria right in
  let by_index := Z.of_nat (r_index left) - Z.of_nat (r_index right) in
  if bool_decide (a = b) then by_index
  else if crit_gtb a b || is_undefined a then 1
  else if crit_gtb b a || is_undefined b then -1
  else by_index.

Definition sortBy {A : Type} (l : list A) (iteratee : A → option Z)
    : list A :=
  r_value <$>
    array_sort sortBy_cmp (imap (λ i v, Ranked v i (iteratee v)) l).

Module Genres.

Definition findIn (e : env) (name : string) (selector options : jsarg)
    (context : context) : St cursor :=
  thisSelector ← or_empty selector;
  theseOptions ← or_empty options;
  let category := Categories_findOne e name in
  let extraGenre := findWhere_name extraGenres name in
  match category, extraGenre with
  | Some category, _ =>
      _ ← extend thisSelector [Some {[ "categories" := VStr (cat_name category) ]}];
      Apps_find e (Ref thisSelector) options
  | None, Some extraGenre =>
      params ← invokeGenreFunctions e extraGenre thisSelector theseOptions context;
      Apps_find e (Ref (params_selector params)) (Ref (params_options params))
  | None, None =>
      Apps_find e Null Undefined
  end.

Definition findOneIn (e : env) (name : string) (selector options : jsarg)
    (context : context) : St (option app) :=
  thisSelector ← or_empty selector;
  theseOptions ← or_empty options;
  let category := Categories_findOne e name in
  let extraGenre := findWhere_name extraGenres name in
  match category, extraGenre with
  | Some category, _ =>
      _ ← extend thisSelector [Some {[ "categories" := VStr (cat_name category) ]}];
      Apps_findOne e (Ref thisSelector) (Ref theseOptions)
  | None, Some extraGenre =>
      params ← invokeGenreFunctions e extraGenre thisSelector theseOptions context;
      Apps_findOne e (Ref (params_selector params)) (Ref (params_options params))
  | None, None =>
      mret None
  end.

Definition getAll (e : env) (options : getAllOptions) : list genre :=
  let genres := (GExtra <$> extraGenres) ++ (GCategory <$> Categories e) in
  let genres :=
    match opt_where options with
    | Some attrs => where_ genres attrs
    | None => genres
    end in
  let genres :=
    match opt_filter options with
    | Some p => List.filter p genres
    | None => genres
    end in
  match opt_iteratee options with
  | Some iteratee => sortBy genres iteratee
  | None => genres
  end.

Definition getOne (e : env) (name : string) : option genre :=
  match Categories_findOne e name with
  | Some c => Some (GCategory c)
  | None => GExtra <$> findWhere_name extraGenres name
  end.

(** [_.filter(list, predicate)] for a predicate that runs in the store:
    the values are tested in order. *)
Fixpoint filterSt {A : Type} (predicate : A → St bool) (l : list A)
    : St (list A) :=
  match l with
  | [] => mret ([] : list A)
  | x :: l' =>
      b ← predicate x;
      results ← filterSt predicate l';
      mret (if b : bool then x :: results else results)
  end.

(** [options] is the argument as [getAll] reads it ([where], [filter],
    [iteratee]); [findOptions] is the same argument as [findOneIn]
    receives it. *)
Definition getPopulated (e : env) (selector : jsarg)
    (options : getAllOptions) (findOptions : jsarg) (context : context)
    : St (list genre) :=
  filterSt (λ genre,
    found ← findOneIn e (genre_name genre) selector findOptions context;
    mret (bool_decide (is_Some found))) (getAll e options).

End Genres.

(** ** The cache of populated genres *)

(** [App.populatedGenres]. *)
Record App := { populatedGenres : list genre }.

Definition isServer (e : env) : bool := negb (isClient e).

(** One period of the interval timer, which only a server sets.
    [approved] is the constant [Apps.approval.approved]; the selector
    literal is a new object and no options or context are passed. *)
Definition refreshPopulatedGenres (e : env) (approved : Z) (app : App)
    : St App :=
  if isServer e then
    selector ← new_object {[ "approved" := VNum approved ]};
    genres ← Genres.getPopulated e (Ref selector) noOptions Undefined noContext;
    mret {| populatedGenres := genres |}
  else mret app.

(** ** The imageUploader directive *)

Module imageUploader.

(** [new Meteor.Error(error, reason)]. *)
Record MeteorError := {
  error : string;
  reason : string
}.

(** The method invocation the directive runs in: [this.userId] is the id
    of the logged-in user, or [null]. *)
Record invocation := { userId : option string }.

Record file := { name : string }.

(** A value of [this.userId] used as a condition. *)
Definition truthy (u : option string) : bool :=
  match u with
  | Some s => negb (String.eqb s "")
  | None => false
  end.

(** A value of [this.userId] used in a string concatenation. *)
Definition to_string (u : option string) : string :=
  match u with
  | Some s => s
  | None => "null"
  end.

Definition authorize (this : invocation) : MeteorError + bool :=
  if negb (truthy (userId this)) then
    let message := "Please login before posting files" in
    inl {| error := "Login Required"; reason := message |}
  else inr true.

(** [now] is the value of [new Date().valueOf()]. *)
Definition key (this : invocation) (now : Z) (file : file) : string :=
  "images/" +:+ to_string (userId this) +:+ "_" +:+ pretty now +:+ "_"
    +:+ name file.

(** Modelled from the spec: the upload service authorizes a request
    before it asks for the key, and transfers data only under a key. *)
Definition requestUpload (this : invocation) (now : Z) (file : file)
    : MeteorError + string :=
  match authorize this with
  | inl err => inl err
  | inr _ => inr (key this now file)
  end.

End imageUploader.

(** ** Vocabulary of the statements *)

(** An argument is well formed in a store when a reference points to an
    object of the store. *)
Definition arg_ok (s : store) (a : jsarg) : Prop :=
  match a with
  | Ref l => is_Some (s !! l)
  | Undefined | Null => True
  end.

(** The object the caller supplied, defaulted to the empty object. *)
Definition supplied (s : store) (a : jsarg) : obj :=
  default ∅ (deref s a).

(** The update the category branch applies to the selector object. *)
Definition set_categories (c : category) (d : obj) : obj :=
  foldl extend_obj d [Some {[ "categories" := VStr (cat_name c) ]}].

(** The order of criteria: numbers ascending, [undefined] last. *)
Definition crit_le (a b : option Z) : Prop :=
  match a, b with
  | Some x, Some y => x ≤ y
  | _, None => True
  | None, Some _ => False
  end.

(** A value that [||] skips: [undefined], [null] or the empty string. *)
Definition falsy (a : option string) : Prop :=
  a = None ∨ a = Some "".

(** Whether [findOneIn] finds a document for the genre when it is called
    in the store [s]. *)
Definition populated (e : env) (selector findOptions : jsarg)
    (context : context) (s : store) (g : genre) : bool :=
  bool_decide (is_Some
    (Genres.findOneIn e (genre_name g) selector findOptions context s).1).

(** The first document, in the natural order, of the selection that
    [findOneIn] makes for a name when the selector it is given holds
    [F]; [findOneIn] finds a document exactly when there is one. *)
Definition answer (e : env) (name : string) (context : context) (F : obj)
    : option app :=
  match Categories_findOne e name, findWhere_name extraGenres name with
  | Some c, _ =>
      head (run_query e (Some (<["categories" := VStr (cat_name c)]> F)))
  | None, Some g =>
      head (run_query e (Some (extend_obj F (invoke (eg_selector g) e context))))
  | None, None => None
  end.

(** One test of [getPopulated]. *)
Definition populatedTest (e : env) (selector findOptions : jsarg)
    (context : context) (genre : genre) : St bool :=
  found ← Genres.findOneIn e (genre_name genre) selector findOptions context;
  mret (bool_decide (is_Some found)).

(** The store while [getPopulated] runs on the selector object [l] of
    the store [s], which held [F]: the selector object holds [F], exactly
    or up to its [categories] field, and the other objects are as they
    were. *)
Definition running (s : store) (l : nat) (F : obj) (findOptions : jsarg)
    (exact : bool) (s' : store) : Prop :=
  (∃ Fk, s' !! l = Some Fk ∧
         if exact then Fk = F
         else delete "categories" Fk = delete "categories" F) ∧
  arg_ok s' findOptions ∧
  (∀ i o, i ≠ l → s !! i = Some o → s' !! i = Some o).

(** ** A small market, for the examples *)

Module Demo.

(** The order of the example store. Under a specifier [{field: d, ...}]
    two documents are compared field by field, in the order of [keys];
    numbers and strings go ascending when [d] is not negative and
    descending otherwise, and documents that agree on every field are
    not separated. *)
Definition value_ltb (a b : value) : bool :=
  match a, b with
  | VNum x, VNum y => x <? y
  | VStr x, VStr y => String.ltb x y
  | _, _ => false
  end.

Fixpoint before_by (spec : list (string * value)) (a b : app) : bool :=
  match spec with
  | [] => true
  | (k, d) :: spec' =>
      let descending := match d with VNum n => n <? 0 | _ => false end in
      if value_ltb (app_field a k) (app_field b k) then negb descending
      else if value_ltb (app_field b k) (app_field a k) then descending
      else before_by spec' a b
  end.

Definition before (spec : value) (a b : app) : bool :=
  match spec with
  | VObj o => before_by (map_to_list o) a b
  | _ => true
  end.

Definition games : category := {| cat_name := "Games"; cat_fields := ∅ |}.

Definition chess : app := {|
  app_id := "a1"; author := "u1"; categories := ["Games"];
  installCount := 5; installCountThisWeek := 1;
  createdAt := 100; lastUpdated := 200; approved := 1;
  latestVersion := {| dateTime := 200 |}
|}.

Definition notes : app := {|
  app_id := "a2"; author := "u2"; categories := ["Office"];
  installCount := 9; installCountThisWeek := 2;
  createdAt := 50; lastUpdated := 150; approved := 1;
  latestVersion := {| dateTime := 150 |}
|}.

(** Installed: an old chess and the latest notes. *)
Definition alice : user := {|
  user_id := "u1";
  installedApps :=
    {[ "a1" := {| version := {| dateTime := 120 |} |};
       "a2" := {| version := {| dateTime := 150 |} |} ]}
|}.

Definition server : env := {|
  isClient := false; hasWindow := false; currentUserId := None;
  users := [alice]; Apps := [chess; notes]; Categories := [games];
  sandstormInstalledApps := VUndefined; routeAuthorId := None;
  Apps_before := before
|}.

Definition browser : env := {|
  isClient := true; hasWindow := true; currentUserId := Some "u1";
  users := [alice]; Apps := [chess; notes]; Categories := [games];
  sandstormInstalledApps := VArr (VStr <$> ["a2"]); routeAuthorId := None;
  Apps_before := before
|}.

Definition asAlice : context :=
  {| this_userId := Some "u1"; this_authorId := None |}.

(** The caller's store: a selector [{categories: "Office", approved: 1}]
    and options [{sort: {foo: 1}}]. *)
Definition callerStore : store :=
  [ {[ "categories" := VStr "Office"; "approved" := VNum 1 ]};
    {[ "sort" := VObj {[ "foo" := VNum 1 ]} ]} ].

End Demo.

(** * Properties *)

(** ** The store *)

Ltac st_unfold :=
  unfold mbind, St_bind, mret, St_ret, or_empty, new_object, extend, read,
    Apps_find, Apps_findOne in *.

Lemma or_empty_spec (s : store) (a : jsarg) :
  arg_ok s a →
  ∃ l s', or_empty a s = (l, s') ∧ s' !! l = Some (supplied s a) ∧
    (∀ i o, s !! i = Some o → s' !! i = Some o) ∧
    (∀ i, a = Ref i → l = i ∧ s' = s) ∧
    (∀ i, a ≠ Ref i → is_Some (s !! i) → l ≠ i).
Proof.
  intros Hok. destruct a as [| |l]; simpl in *.
  - exists (length s), (s ++ [∅]). unfold new_object, supplied. simpl.
    split; [done|]. split.
    { by apply list_lookup_middle. }
    split; [intros i o Hi; by apply lookup_app_l_Some|].
    split; [done|]. intros i _ [o Hi] Heq.
    apply lookup_lt_Some in Hi. lia.
  - exists (length s), (s ++ [∅]). unfold new_object, supplied. simpl.
    split; [done|]. split.
    { by apply list_lookup_middle. }
    split; [intros i o Hi; by apply lookup_app_l_Some|].
    split; [done|]. intros i _ [o Hi] Heq.
    apply lookup_lt_Some in Hi. lia.
  - destruct Hok as [o Ho]. exists l, s. unfold supplied. simpl. rewrite Ho.
    split; [done|]. split; [done|]. split; [done|].
    split; [by intros i [= ->]|]. intros i Hne _ ->. by apply Hne.
Qed.

Lemma find_name_Some {A : Type} (nm : A → string) (l : list A) (n : string) (x : A) :
  find (λ y, String.eqb (nm y) n) l = Some x → x ∈ l ∧ nm x = n.
Proof.
  intros H. apply find_some in H as [Hin Heq].
  split; [by apply list_elem_of_In|by apply String.eqb_eq].
Qed.

Lemma find_name_None {A : Type} (nm : A → string) (l : list A) (n : string) :
  find (λ y, String.eqb (nm y) n) l = None ↔ ∀ x, x ∈ l → nm x ≠ n.
Proof.
  split.
  - intros H x Hin Heq. apply list_elem_of_In in Hin.
    pose proof (find_none _ _ H x Hin) as Hf. simpl in Hf.
    apply String.eqb_neq in Hf. by apply Hf.
  - intros H. destruct (find _ l) as [x|] eqn:Hf; [|done].
    apply find_name_Some in Hf as [Hin Heq]. by destruct (H x Hin).
Qed.

Lemma find_name_elem {A : Type} (nm : A → string) (l : list A) (x : A) :
  x ∈ l → ∃ y, find (λ y, String.eqb (nm y) (nm x)) l = Some y ∧ nm y = nm x.
Proof.
  intros Hin. destruct (find _ l) as [y|] eqn:Hf.
  - exists y. split; [done|]. by apply find_name_Some in Hf as [_ ?].
  - exfalso. by apply (proj1 (find_name_None nm l (nm x)) Hf x Hin).
Qed.

(** ** Sorting, and the order of the store *)

Section array_sort.
Context {A : Type} (cmp : A → A → Z).
Hypothesis cmp_total : ∀ x y, cmp x y ≤ 0 ∨ cmp y x ≤ 0.

Lemma insert_sorted_perm (x : A) (l : list A) :
  insert_sorted cmp x l ≡ₚ x :: l.
Proof.
  induction l as [|y l IH]; simpl; [done|].
  destruct (cmp x y <=? 0); [done|].
  rewrite IH. apply Permutation_swap.
Qed.

Lemma array_sort_perm (l : list A) : array_sort cmp l ≡ₚ l.
Proof.
  induction l as [|x l IH]; simpl; [done|].
  by rewrite insert_sorted_perm, IH.
Qed.

Lemma insert_sorted_HdRel (a x : A) (l : list A) :
  cmp a x ≤ 0 → HdRel (λ u v, cmp u v ≤ 0) a l →
  HdRel (λ u v, cmp u v ≤ 0) a (insert_sorted cmp x l).
Proof.
  intros Hax Hhd. destruct l as [|y l]; simpl.
  - by constructor.
  - destruct (cmp x y <=? 0); constructor; [done|].
    by inversion Hhd.
Qed.

Lemma insert_sorted_Sorted (x : A) (l : list A) :
  Sorted (λ u v, cmp u v ≤ 0) l →
  Sorted (λ u v, cmp u v ≤ 0) (insert_sorted cmp x l).
Proof.
  induction 1 as [|y l Hs IH Hhd]; simpl.
  - repeat constructor.
  - destruct (cmp x y <=? 0) eqn:Hxy.
    + apply Z.leb_le in Hxy. repeat constructor; done.
    + apply Z.leb_gt in Hxy. constructor; [done|].
      apply insert_sorted_HdRel; [|done].
      destruct (cmp_total x y); lia.
Qed.

Lemma array_sort_Sorted (l : list A) :
  Sorted (λ u v, cmp u v ≤ 0) (array_sort cmp l).
Proof.
  induction l as [|x l IH]; simpl; [constructor|].
  by apply insert_sorted_Sorted.
Qed.
End array_sort.

Lemma sort_docs_perm (e : env) (options : option obj) (docs : list app) :
  sort_docs e options docs ≡ₚ docs.
Proof.
  unfold sort_docs.
  destruct (options ≫= (.!! "sort")) as [[]|]; try done; apply array_sort_perm.
Qed.

Lemma sort_docs_ext (e : env) (o1 o2 : option obj) (docs : list app) :
  o1 ≫= (.!! "sort") = o2 ≫= (.!! "sort") →
  sort_docs e o1 docs = sort_docs e o2 docs.
Proof. unfold sort_docs. by intros ->. Qed.

Lemma sort_docs_nil (e : env) (options : option obj) :
  sort_docs e options [] = [].
Proof.
  unfold sort_docs. by destruct (options ≫= (.!! "sort")) as [[]|].
Qed.

Lemma elem_of_sort_docs (e : env) (options : option obj) (docs : list app)
    (a : app) :
  a ∈ sort_docs e options docs ↔ a ∈ docs.
Proof. by rewrite sort_docs_perm. Qed.

Lemma find_docs_perm (e : env) (sel options : option obj) :
  find_docs e sel options ≡ₚ run_query e sel.
Proof. apply sort_docs_perm. Qed.

Lemma head_find_docs (e : env) (sel options : option obj) :
  is_Some (head (find_docs e sel options)) ↔ is_Some (head (run_query e sel)).
Proof.
  rewrite !head_is_Some. pose proof (find_docs_perm e sel options) as Hp.
  split; intros Hne E; apply Hne.
  - rewrite E in Hp. by apply Permutation_nil_r in Hp.
  - rewrite E in Hp. by apply Permutation_nil_l in Hp.
Qed.

(** Under a sort specifier the documents come in the store's order for
    it, provided that order compares any two documents. *)
Lemma find_docs_Sorted (e : env) (sel options : option obj) (spec : value) :
  options ≫= (.!! "sort") = Some spec →
  spec ≠ VUndefined → spec ≠ VNull →
  (∀ a b, Apps_before e spec a b = true ∨ Apps_before e spec b a = true) →
  Sorted (λ a b, Apps_before e spec a b = true) (find_docs e sel options).
Proof.
  intros Hspec Hu Hn Htotal. unfold find_docs, sort_docs. rewrite Hspec.
  set (cmp := λ a b : app, if Apps_before e spec a b then 0 else 1).
  assert (Sorted (λ u v, cmp u v ≤ 0) (array_sort cmp (run_query e sel)))
    as Hsorted.
  { apply array_sort_Sorted. intros x y. unfold cmp.
    destruct (Htotal x y) as [-> | ->]; [by left|by right]. }
  assert (∀ l, Sorted (λ u v, cmp u v ≤ 0) l →
               Sorted (λ a b, Apps_before e spec a b = true) l) as Himpl.
  { induction 1 as [|x l Hs IH Hhd]; constructor; [done|].
    destruct Hhd as [|y l Hxy]; constructor.
    unfold cmp in Hxy. by destruct (Apps_before e spec x y). }
  destruct spec; try done; by apply Himpl.
Qed.

(** ** The three branches of [findIn] and [findOneIn] *)

Lemma set_categories_insert (c : category) (d : obj) :
  set_categories c d = <["categories" := VStr (cat_name c)]> d.
Proof.
  unfold set_categories. simpl. by rewrite insert_union_singleton_l.
Qed.

Lemma findIn_category (e : env) (name : string) (selector options : jsarg)
    (context : context) (s : store) (c : category) :
  Categories_findOne e name = Some c →
  Genres.findIn e name selector options context s =
    let '(l, s1) := or_empty selector s in
    let '(_, s2) := or_empty options s1 in
    let s3 := alter (set_categories c) l s2 in
    ({| find_selector := Ref l; find_options := options;
        fetch := find_docs e (s3 !! l) (deref s3 options) |}, s3).
Proof.
  intros Hc. unfold Genres.findIn. rewrite Hc.
  unfold mbind, St_bind.
  destruct (or_empty selector s) as [l s1].
  destruct (or_empty options s1) as [lo s2].
  reflexivity.
Qed.

Lemma findOneIn_category (e : env) (name : string) (selector options : jsarg)
    (context : context) (s : store) (c : category) :
  Categories_findOne e name = Some c →
  Genres.findOneIn e name selector options context s =
    let '(l, s1) := or_empty selector s in
    let '(lo, s2) := or_empty options s1 in
    let s3 := alter (set_categories c) l s2 in
    (head (find_docs e (s3 !! l) (s3 !! lo)), s3).
Proof.
  intros Hc. unfold Genres.findOneIn. rewrite Hc.
  unfold mbind, St_bind.
  destruct (or_empty selector s) as [l s1].
  destruct (or_empty options s1) as [lo s2].
  reflexivity.
Qed.

(** The store after the category branch: the selector object carries the
    category, every other object of the caller is as before. *)
Lemma category_branch_store (s : store) (selector options : jsarg)
    (c : category) :
  arg_ok s selector → arg_ok s options →
  ∃ l s1 lo s2,
    or_empty selector s = (l, s1) ∧ or_empty options s1 = (lo, s2) ∧
    alter (set_categories c) l s2 !! l =
      Some (<["categories" := VStr (cat_name c)]> (supplied s selector)) ∧
    (∀ i, selector = Ref i → l = i) ∧
    (∀ i o, selector ≠ Ref i → s !! i = Some o →
       alter (set_categories c) l s2 !! i = Some o).
Proof.
  intros Hsel Hopt.
  destruct (or_empty_spec s selector Hsel)
    as (l & s1 & E1 & Hl & Hkeep1 & Hsame1 & Hfresh1).
  assert (arg_ok s1 options) as Hopt1.
  { destruct options as [| |i]; simpl in *; try done.
    destruct Hopt as [o Ho]. exists o. by apply Hkeep1. }
  destruct (or_empty_spec s1 options Hopt1)
    as (lo & s2 & E2 & _ & Hkeep2 & _ & _).
  exists l, s1, lo, s2. split; [done|]. split; [done|]. split.
  { rewrite list_lookup_alter. rewrite decide_True by done.
    rewrite (Hkeep2 _ _ Hl). simpl. by rewrite set_categories_insert. }
  split; [intros i Hi; by apply Hsame1|].
  intros i o Hne Hi. rewrite list_lookup_alter_ne.
  - apply Hkeep2. by apply Hkeep1.
  - apply Hfresh1; [done|by exists o].
Qed.

(** The merge of [_.extend] is shallow and the source wins. *)
Lemma extend_obj_lookup (dst src : obj) (k : string) :
  extend_obj dst (Some src) !! k =
    match src !! k with
    | Some v => Some v
    | None => dst !! k
    end.
Proof.
  simpl. rewrite lookup_union.
  destruct (src !! k), (dst !! k); reflexivity.
Qed.

Lemma invokeGenreFunctions_spec (e : env) (g : extraGenre) (l lo : nat)
    (context : context) (s : store) (F O : obj) :
  s !! l = Some F → s !! lo = Some O →
  ∃ p s',
    invokeGenreFunctions e g l lo context s = (p, s') ∧
    s' !! params_selector p =
      Some (extend_obj F (invoke (eg_selector g) e context)) ∧
    s' !! params_options p =
      Some (extend_obj O (invoke (eg_options g) e context)) ∧
    (∀ i o, s !! i = Some o → s' !! i = Some o) ∧
    (length s ≤ params_selector p)%nat ∧
    (length s ≤ params_options p)%nat.
Proof.
  intros Hl Hlo. unfold invokeGenreFunctions. st_unfold.
  set (G := invoke (eg_selector g) e context).
  set (P := invoke (eg_options g) e context).
  set (s3 := s ++ [∅]).
  assert (s3 !! l = Some F) as Hl3 by by apply lookup_app_l_Some.
  rewrite Hl3. simpl.
  set (s4 := alter _ (length s) s3).
  assert (length s4 = S (length s)) as Hlen4.
  { unfold s4, s3. rewrite length_alter, length_app. simpl. lia. }
  assert (s4 !! length s = Some (extend_obj F G)) as Hsel4.
  { unfold s4. rewrite list_lookup_alter, decide_True by done.
    unfold s3. rewrite list_lookup_middle by done. simpl.
    by rewrite (right_id_L ∅ (∪)). }
  assert (∀ i o, s !! i = Some o → s4 !! i = Some o) as Hkeep4.
  { intros i o Hi. unfold s4. rewrite list_lookup_alter_ne.
    - by apply lookup_app_l_Some.
    - apply lookup_lt_Some in Hi. lia. }
  set (s5 := s4 ++ [∅]).
  assert (s5 !! lo = Some O) as Hlo5.
  { apply lookup_app_l_Some. by apply Hkeep4. }
  rewrite Hlo5. simpl.
  eexists _, _. split; [reflexivity|]. simpl.
  split.
  { rewrite list_lookup_alter_ne by lia. by apply lookup_app_l_Some. }
  split.
  { rewrite list_lookup_alter, decide_True by done.
    unfold s5. rewrite list_lookup_middle by done. simpl.
    by rewrite (right_id_L ∅ (∪)). }
  split.
  { intros i o Hi. rewrite list_lookup_alter_ne.
    - apply lookup_app_l_Some. by apply Hkeep4.
    - apply lookup_lt_Some in Hi. lia. }
  split; lia.
Qed.

Lemma findIn_extra (e : env) (name : string) (selector options : jsarg)
    (context : context) (s : store) (g : extraGenre) :
  Categories_findOne e name = None →
  findWhere_name extraGenres name = Some g →
  Genres.findIn e name selector options context s =
    let '(l, s1) := or_empty selector s in
    let '(lo, s2) := or_empty options s1 in
    let '(p, s3) := invokeGenreFunctions e g l lo context s2 in
    ({| find_selector := Ref (params_selector p);
        find_options := Ref (params_options p);
        fetch := find_docs e (s3 !! params_selector p)
                   (s3 !! params_options p) |}, s3).
Proof.
  intros Hc Hg. unfold Genres.findIn. rewrite Hc, Hg.
  unfold mbind, St_bind.
  destruct (or_empty selector s) as [l s1].
  destruct (or_empty options s1) as [lo s2].
  destruct (invokeGenreFunctions e g l lo context s2) as [p s3].
  reflexivity.
Qed.

Lemma findOneIn_extra (e : env) (name : string) (selector options : jsarg)
    (context : context) (s : store) (g : extraGenre) :
  Categories_findOne e name = None →
  findWhere_name extraGenres name = Some g →
  Genres.findOneIn e name selector options context s =
    let '(l, s1) := or_empty selector s in
    let '(lo, s2) := or_empty options s1 in
    let '(p, s3) := invokeGenreFunctions e g l lo context s2 in
    (head (find_docs e (s3 !! params_selector p) (s3 !! params_options p)),
     s3).
Proof.
  intros Hc Hg. unfold Genres.findOneIn. rewrite Hc, Hg.
  unfold mbind, St_bind.
  destruct (or_empty selector s) as [l s1].
  destruct (or_empty options s1) as [lo s2].
  destruct (invokeGenreFunctions e g l lo context s2) as [p s3].
  reflexivity.
Qed.

(** The extra-genre branch as a whole: the query runs on two fresh
    objects that merge the supplied objects with the genre's, and every
    object of the caller is as before. *)
Lemma extra_branch (e : env) (name : string) (selector options : jsarg)
    (context : context) (s : store) (g : extraGenre) :
  Categories_findOne e name = None →
  findWhere_name extraGenres name = Some g →
  arg_ok s selector → arg_ok s options →
  ∃ ls lo s',
    let S := extend_obj (supplied s selector) (invoke (eg_selector g) e context) in
    let P := extend_obj (supplied s options) (invoke (eg_options g) e context) in
    Genres.findIn e name selector options context s =
      ({| find_selector := Ref ls; find_options := Ref lo;
          fetch := find_docs e (Some S) (Some P) |}, s') ∧
    Genres.findOneIn e name selector options context s =
      (head (find_docs e (Some S) (Some P)), s') ∧
    s' !! ls = Some S ∧ s' !! lo = Some P ∧
    (∀ i o, s !! i = Some o → s' !! i = Some o) ∧
    (length s ≤ ls)%nat ∧ (length s ≤ lo)%nat.
Proof.
  intros Hc Hg Hsel Hopt.
  destruct (or_empty_spec s selector Hsel)
    as (l & s1 & E1 & Hl & Hkeep1 & _ & _).
  assert (arg_ok s1 options) as Hopt1.
  { destruct options as [| |i]; simpl in *; try done.
    destruct Hopt as [o Ho]. exists o. by apply Hkeep1. }
  assert (supplied s1 options = supplied s options) as Hsup.
  { destruct options as [| |i]; try done. unfold supplied. simpl.
    destruct Hopt as [o Ho]. by rewrite Ho, (Hkeep1 _ _ Ho). }
  destruct (or_empty_spec s1 options Hopt1)
    as (l2 & s2 & E2 & Hl2 & Hkeep2 & _ & _).
  rewrite Hsup in Hl2.
  destruct (invokeGenreFunctions_spec e g l l2 context s2 _ _
              (Hkeep2 _ _ Hl) Hl2)
    as (p & s3 & E3 & Hps & Hpo & Hkeep3 & Hfs & Hfo).
  assert (length s ≤ length s2)%nat as Hlen.
  { destruct (decide (length s ≤ length s2)%nat) as [|Hn]; [done|].
    exfalso. destruct (lookup_lt_is_Some_2 s (length s2)) as [o Ho]; [lia|].
    apply Hkeep1, Hkeep2, lookup_lt_Some in Ho. lia. }
  exists (params_selector p), (params_options p), s3. simpl.
  split.
  { rewrite (findIn_extra _ _ _ _ _ _ g) by done.
    rewrite E1, E2, E3. by rewrite Hps, Hpo. }
  split.
  { rewrite (findOneIn_extra _ _ _ _ _ _ g) by done.
    rewrite E1, E2, E3. by rewrite Hps, Hpo. }
  split; [done|]. split; [done|]. split.
  { intros i o Hi. by apply Hkeep3, Hkeep2, Hkeep1. }
  split; lia.
Qed.

(** ** The catalog store *)

Lemma doc_matches_empty (a : app) : doc_matches ∅ a = true.
Proof. unfold doc_matches. by rewrite map_to_list_empty. Qed.

Lemma doc_matches_failing (sel : obj) (a : app) (k : string) (c : value) :
  sel !! k = Some c → cond_matches c (app_field a k) = false →
  doc_matches sel a = false.
Proof.
  intros Hk Hc. unfold doc_matches.
  apply not_true_is_false. intros Hall.
  rewrite forallb_forall in Hall.
  apply elem_of_map_to_list, list_elem_of_In in Hk.
  specialize (Hall _ Hk). simpl in Hall. congruence.
Qed.

Lemma run_query_empty_selector (e : env) : run_query e (Some ∅) = Apps e.
Proof.
  unfold run_query. induction (Apps e) as [|a l IH]; [done|].
  rewrite filter_cons_True; [by rewrite IH|].
  by rewrite doc_matches_empty.
Qed.

Lemma run_query_nothing (e : env) (sel : obj) :
  (∀ a, doc_matches sel a = false) → run_query e (Some sel) = [].
Proof.
  intros Hno. unfold run_query. induction (Apps e) as [|a l IH]; [done|].
  rewrite filter_cons_False; [done|]. rewrite Hno. by intros [].
Qed.

Lemma id_in_nil_matches_nothing (F : obj) (a : app) :
  doc_matches (extend_obj F (Some (id_in []))) a = false.
Proof.
  apply (doc_matches_failing _ a "_id" (VObj {[ "$in" := VArr [] ]})).
  - rewrite extend_obj_lookup. unfold id_in. by rewrite lookup_singleton_eq.
  - simpl. by rewrite lookup_singleton_eq.
Qed.

(** ** Claims about [findIn] and [findOneIn] *)

(** C1 (the code departs from the claim). When the selector function of
    an extra genre returns [null], [_.extend] skips it: the query runs on
    a copy of the selector the caller supplied and on nothing else, for
    [findIn] and for [findOneIn] alike; with no selector supplied, the
    query is the unrestricted one and yields the whole catalog, in the
    order the merged options ask for. *)
Theorem null_selector_keeps_caller_query (e : env) (name : string)
    (g : extraGenre) (f : env → context → option string → option obj)
    (selector options : jsarg) (context : context) (s : store) :
  Categories_findOne e name = None →
  findWhere_name extraGenres name = Some g →
  eg_selector g = Computed f →
  f e context None = None →
  arg_ok s selector → arg_ok s options →
  ∃ ls lo s',
    let P := extend_obj (supplied s options) (invoke (eg_options g) e context) in
    Genres.findIn e name selector options context s =
      ({| find_selector := Ref ls; find_options := Ref lo;
          fetch := find_docs e (Some (supplied s selector)) (Some P) |}, s') ∧
    Genres.findOneIn e name selector options context s =
      (head (find_docs e (Some (supplied s selector)) (Some P)), s') ∧
    s' !! ls = Some (supplied s selector) ∧
    s' !! lo = Some P ∧
    (deref s selector = None →
       run_query e (Some (supplied s selector)) = Apps e ∧
       find_docs e (Some (supplied s selector)) (Some P) ≡ₚ Apps e).
Proof.
  intros Hc Hg Hf Hnull Hsel Hopt.
  destruct (extra_branch e name selector options context s g Hc Hg Hsel Hopt)
    as (ls & lo & s' & Hfind & Hone & Hls & Hlo & _).
  cbv zeta in *.
  assert (invoke (eg_selector g) e context = None) as Hinv.
  { rewrite Hf. exact Hnull. }
  rewrite Hinv in Hfind, Hone, Hls. cbn [extend_obj] in Hfind, Hone, Hls.
  exists ls, lo, s'.
  split; [exact Hfind|]. split; [exact Hone|].
  split; [exact Hls|]. split; [exact Hlo|].
  intros Hnone.
  assert (run_query e (Some (supplied s selector)) = Apps e) as Hall.
  { unfold supplied. rewrite Hnone. apply run_query_empty_selector. }
  split; [exact Hall|]. rewrite find_docs_perm. by rewrite Hall.
Qed.

Lemma null_selector_keeps_caller_query_witness :
  ∃ ls lo s',
    let P := extend_obj (supplied [] Undefined)
               (invoke Absent Demo.server noContext) in
    Genres.findIn Demo.server "Apps By Me" Undefined Undefined noContext [] =
      ({| find_selector := Ref ls; find_options := Ref lo;
          fetch := find_docs Demo.server (Some (supplied [] Undefined))
                     (Some P) |}, s') ∧
    Genres.findOneIn Demo.server "Apps By Me" Undefined Undefined noContext [] =
      (head (find_docs Demo.server (Some (supplied [] Undefined)) (Some P)),
       s') ∧
    s' !! ls = Some (supplied [] Undefined) ∧
    s' !! lo = Some P ∧
    (deref [] Undefined = None →
       run_query Demo.server (Some (supplied [] Undefined)) = Apps Demo.server ∧
       find_docs Demo.server (Some (supplied [] Undefined)) (Some P)
         ≡ₚ Apps Demo.server).
Proof.
  apply (null_selector_keeps_caller_query Demo.server "Apps By Me"
           {| eg_name := "Apps By Me";
              eg_selector := Computed AppsByMe_selector; eg_options := Absent;
              eg_priority := 0; eg_showSummary := false |}
           AppsByMe_selector
           Undefined Undefined noContext []);
    [reflexivity | reflexivity | reflexivity | reflexivity | exact I | exact I].
Defined.

(** On the server, with nobody logged in, "Apps By Me" lists every
    application and [findOneIn] returns the first of them. *)
Example AppsByMe_without_user :
  fetch (Genres.findIn Demo.server "Apps By Me" Undefined Undefined noContext []).1
    = [Demo.chess; Demo.notes] ∧
  (Genres.findOneIn Demo.server "Apps By Me" Undefined Undefined noContext []).1
    = Some Demo.chess.
Proof. split; vm_compute; reflexivity. Qed.

(** The same genres restrict the query once a user is resolved. *)
Example AppsByMe_with_user :
  fetch (Genres.findIn Demo.server "Apps By Me" Undefined Undefined Demo.asAlice []).1
    = [Demo.chess].
Proof. vm_compute. reflexivity. Qed.

(** C2. For a registered category [c], [findIn (cat_name c)] queries the
    catalog with the supplied selector whose [categories] field is set to
    the category's name, whatever it held before, and passes on the
    caller's options argument as it received it. *)
Theorem findIn_category_query (e : env) (c : category)
    (selector options : jsarg) (context : context) (s : store) :
  c ∈ Categories e →
  arg_ok s selector → arg_ok s options →
  ∃ cur s',
    Genres.findIn e (cat_name c) selector options context s = (cur, s') ∧
    deref s' (find_selector cur) =
      Some (<["categories" := VStr (cat_name c)]> (supplied s selector)) ∧
    fetch cur =
      find_docs e
        (Some (<["categories" := VStr (cat_name c)]> (supplied s selector)))
        (deref s' options) ∧
    find_options cur = options ∧
    (∀ lo, options = Ref lo → selector ≠ Ref lo → s' !! lo = s !! lo).
Proof.
  intros Hin Hsel Hopt.
  destruct (find_name_elem cat_name (Categories e) c Hin) as (c' & Hfind & Hname).
  fold (Categories_findOne e (cat_name c)) in Hfind.
  destruct (category_branch_store s selector options c' Hsel Hopt)
    as (l & s1 & lo & s2 & E1 & E2 & Hl & Hsame & Hother).
  rewrite Hname in Hl.
  eexists _, _. split.
  { rewrite (findIn_category _ _ _ _ _ _ c') by done. rewrite E1, E2.
    reflexivity. }
  cbn [fetch find_selector find_options deref].
  split; [done|]. split; [by rewrite Hl|]. split; [done|].
  intros i -> Hne. destruct Hopt as [o Ho].
  rewrite Ho. by apply Hother.
Qed.

Lemma findIn_category_query_witness :
  ∃ cur s',
    Genres.findIn Demo.server "Games" (Ref 0%nat) (Ref 1%nat) noContext
      Demo.callerStore = (cur, s') ∧
    deref s' (find_selector cur) =
      Some (<["categories" := VStr "Games"]> (supplied Demo.callerStore (Ref 0%nat))) ∧
    fetch cur =
      find_docs Demo.server
        (Some (<["categories" := VStr "Games"]> (supplied Demo.callerStore (Ref 0%nat))))
        (deref s' (Ref 1%nat)) ∧
    find_options cur = Ref 1%nat ∧
    (∀ lo, Ref 1%nat = Ref lo → Ref 0%nat ≠ Ref lo →
       s' !! lo = Demo.callerStore !! lo).
Proof.
  apply (findIn_category_query Demo.server Demo.games (Ref 0%nat) (Ref 1%nat)
           noContext Demo.callerStore).
  - apply list_elem_of_here.
  - simpl. eexists. reflexivity.
  - simpl. eexists. reflexivity.
Defined.

(** The caller asked for "Office"; the category wins. *)
Example findIn_category_overwrites :
  (Genres.findIn Demo.server "Games" (Ref 0%nat) (Ref 1%nat) noContext
     Demo.callerStore).2 !! 0%nat
    = Some {[ "categories" := VStr "Games"; "approved" := VNum 1 ]}.
Proof. vm_compute. reflexivity. Qed.

(** C4. For an extra genre the query runs on the shallow merge of the
    supplied selector and options (the empty object when absent) with the
    genre's: a key of the genre's object takes the genre's value, whole,
    and any other key keeps the caller's value. [findOneIn] asks for the
    first document of the same query. In particular, "Popular" called
    with [{}] and [{sort: {foo: 1}}] sorts by [installCount] descending
    and drops [foo]. *)
Theorem extra_genre_merge :
  (∀ (e : env) (name : string) (g : extraGenre) (selector options : jsarg)
     (context : context) (s : store),
     Categories_findOne e name = None →
     findWhere_name extraGenres name = Some g →
     arg_ok s selector → arg_ok s options →
     ∃ ls lo s' S P,
       Genres.findIn e name selector options context s =
         ({| find_selector := Ref ls; find_options := Ref lo;
             fetch := find_docs e (Some S) (Some P) |}, s') ∧
       Genres.findOneIn e name selector options context s =
         (head (find_docs e (Some S) (Some P)), s') ∧
       s' !! ls = Some S ∧ s' !! lo = Some P ∧
       (∀ G, invoke (eg_selector g) e context = Some G →
          ∀ k, S !! k = match G !! k with
                        | Some v => Some v
                        | None => supplied s selector !! k
                        end) ∧
       (∀ G, invoke (eg_options g) e context = Some G →
          ∀ k, P !! k = match G !! k with
                        | Some v => Some v
                        | None => supplied s options !! k
                        end) ∧
       (invoke (eg_options g) e context = None → P = supplied s options)) ∧
  (∀ (e : env) (context : context),
     Categories_findOne e "Popular" = None →
     let s := [∅; {[ "sort" := VObj {[ "foo" := VNum 1 ]} ]}] in
     let r := Genres.findIn e "Popular" (Ref 0%nat) (Ref 1%nat) context s in
     deref r.2 (find_options r.1) =
       Some {[ "sort" := VObj {[ "installCount" := VNum (-1) ]} ]}).
Proof.
  split.
  - intros e name g selector options context s Hc Hg Hsel Hopt.
    destruct (extra_branch e name selector options context s g Hc Hg Hsel Hopt)
      as (ls & lo & s' & Hfind & Hone & Hls & Hlo & _).
    cbv zeta in *.
    eexists ls, lo, s', _, _.
    split; [exact Hfind|]. split; [exact Hone|].
    split; [exact Hls|]. split; [exact Hlo|].
    split; [intros G HG k; rewrite HG; apply extend_obj_lookup|].
    split; [intros G HG k; rewrite HG; apply extend_obj_lookup|].
    by intros ->.
  - intros e context Hc s r.
    assert (findWhere_name extraGenres "Popular" =
              Some {| eg_name := "Popular"; eg_selector := Static ∅;
                      eg_options := Static (sort_desc "installCount");
                      eg_priority := 0; eg_showSummary := true |}) as Hg
      by reflexivity.
    destruct (extra_branch e "Popular" (Ref 0%nat) (Ref 1%nat) context s _ Hc Hg)
      as (ls & lo & s' & Hfind & _ & _ & Hlo & _).
    { simpl. eexists. reflexivity. }
    { simpl. eexists. reflexivity. }
    cbv zeta in Hfind, Hlo. unfold r. rewrite Hfind.
    cbn [fst snd find_options deref]. rewrite Hlo.
    vm_compute. reflexivity.
Qed.

Lemma extra_genre_merge_witness :
  (∃ ls lo s' S P,
     Genres.findIn Demo.server "Popular" (Ref 0%nat) (Ref 1%nat) noContext
       Demo.callerStore =
       ({| find_selector := Ref ls; find_options := Ref lo;
           fetch := find_docs Demo.server (Some S) (Some P) |}, s') ∧
     Genres.findOneIn Demo.server "Popular" (Ref 0%nat) (Ref 1%nat) noContext
       Demo.callerStore = (head (find_docs Demo.server (Some S) (Some P)), s') ∧
     s' !! ls = Some S ∧ s' !! lo = Some P ∧
     (∀ G, invoke (Static ∅) Demo.server noContext = Some G →
        ∀ k, S !! k = match G !! k with
                      | Some v => Some v
                      | None => supplied Demo.callerStore (Ref 0%nat) !! k
                      end) ∧
     (∀ G, invoke (Static (sort_desc "installCount")) Demo.server noContext
             = Some G →
        ∀ k, P !! k = match G !! k with
                      | Some v => Some v
                      | None => supplied Demo.callerStore (Ref 1%nat) !! k
                      end) ∧
     (invoke (Static (sort_desc "installCount")) Demo.server noContext = None →
        P = supplied Demo.callerStore (Ref 1%nat))) ∧
  (let s := [∅; {[ "sort" := VObj {[ "foo" := VNum 1 ]} ]}] in
   let r := Genres.findIn Demo.server "Popular" (Ref 0%nat) (Ref 1%nat)
              noContext s in
   deref r.2 (find_options r.1) =
     Some {[ "sort" := VObj {[ "installCount" := VNum (-1) ]} ]}).
Proof.
  split.
  - apply (proj1 extra_genre_merge Demo.server "Popular"
             {| eg_name := "Popular"; eg_selector := Static ∅;
                eg_options := Static (sort_desc "installCount");
                eg_priority := 0; eg_showSummary := true |}
             (Ref 0%nat) (Ref 1%nat) noContext Demo.callerStore).
    + reflexivity.
    + reflexivity.
    + simpl. eexists. reflexivity.
    + simpl. eexists. reflexivity.
  - apply (proj2 extra_genre_merge Demo.server noContext). reflexivity.
Defined.

(** C5. A name that is neither a category nor an extra genre: [findIn]
    calls [Apps.find(null)], whose cursor is empty whatever the caller
    supplied, [findOneIn] returns nothing without a query, and the
    caller's objects are as before. *)
Theorem unknown_name_finds_nothing (e : env) (name : string)
    (selector options : jsarg) (context : context) (s : store) :
  (∀ c, c ∈ Categories e → cat_name c ≠ name) →
  (∀ g, g ∈ extraGenres → eg_name g ≠ name) →
  ∃ s',
    Genres.findIn e name selector options context s =
      ({| find_selector := Null; find_options := Undefined; fetch := [] |}, s') ∧
    Genres.findOneIn e name selector options context s = (None, s') ∧
    (∀ i o, s !! i = Some o → s' !! i = Some o).
Proof.
  intros Hc Hg.
  apply (find_name_None cat_name) in Hc. apply (find_name_None eg_name) in Hg.
  unfold Genres.findIn, Genres.findOneIn, Categories_findOne, findWhere_name.
  rewrite Hc, Hg. st_unfold.
  destruct selector, options; simpl; eexists; (split; [reflexivity|]);
    (split; [reflexivity|]); intros i o Hi;
    repeat apply lookup_app_l_Some; done.
Qed.

Lemma unknown_name_finds_nothing_witness :
  ∃ s',
    Genres.findIn Demo.server "Nope" (Ref 0%nat) (Ref 1%nat) noContext
      Demo.callerStore =
      ({| find_selector := Null; find_options := Undefined; fetch := [] |}, s') ∧
    Genres.findOneIn Demo.server "Nope" (Ref 0%nat) (Ref 1%nat) noContext
      Demo.callerStore = (None, s') ∧
    (∀ i o, Demo.callerStore !! i = Some o → s' !! i = Some o).
Proof.
  apply (unknown_name_finds_nothing Demo.server "Nope" (Ref 0%nat) (Ref 1%nat)
           noContext Demo.callerStore).
  - intros c Hin. apply list_elem_of_In in Hin. simpl in Hin.
    destruct Hin as [<-|[]]. discriminate.
  - intros g Hin. apply list_elem_of_In in Hin. simpl in Hin.
    repeat (destruct Hin as [<-|Hin]; [discriminate|]). destruct Hin.
Defined.

(** ** Claims about single extra genres *)

Lemma elem_of_keys {A : Type} (m : gmap string A) (k : string) :
  k ∈ keys m ↔ k ∈ dom m.
Proof.
  unfold keys. rewrite elem_of_dom, list_elem_of_fmap. split.
  - intros ([k' v] & -> & Hin). apply elem_of_map_to_list in Hin. by exists v.
  - intros [v Hv]. exists (k, v). split; [done|].
    by apply elem_of_map_to_list.
Qed.

(** C6 (the code departs from the claim). "Installed": the selector is
    an id-membership filter whose list holds what [concat] makes of the
    value persisted in the browser (when there is a window), then the
    keys of the resolved user's [installedApps]. Outside a browser and
    with no user resolved the list is empty, and [findIn] and [findOneIn]
    find nothing, whatever the caller supplied. When the persisted value
    is a list of ids the list is the union of those ids and the user's
    keys. When nothing is persisted, [amplify.store] returns [undefined]
    and the list holds [undefined] beside the user's keys. *)
Theorem Installed_ids (e : env) (this : context) :
  ∃ ids : list value,
    Installed_selector e this None = Some (id_in ids) ∧
    (∀ v, v ∈ ids ↔
       (hasWindow e = true ∧ v ∈ concat [] (sandstormInstalledApps e)) ∨
       (∃ u k, getUser e this None = Some u ∧ v = VStr k ∧
               k ∈ dom (installedApps u))) ∧
    (hasWindow e = false → getUser e this None = None →
       ids = [] ∧
       ∀ (selector options : jsarg) (s : store),
         Categories_findOne e "Installed" = None →
         arg_ok s selector → arg_ok s options →
         fetch (Genres.findIn e "Installed" selector options this s).1 = [] ∧
         (Genres.findOneIn e "Installed" selector options this s).1 = None) ∧
    (∀ local : list string,
       (hasWindow e = true → sandstormInstalledApps e = VArr (VStr <$> local)) →
       (∀ v, v ∈ ids → ∃ k, v = VStr k) ∧
       (∀ k, VStr k ∈ ids ↔
          (hasWindow e = true ∧ k ∈ local) ∨
          (∃ u, getUser e this None = Some u ∧ k ∈ dom (installedApps u)))) ∧
    (hasWindow e = true → sandstormInstalledApps e = VUndefined →
       VUndefined ∈ ids).
Proof.
  set (ids := (if hasWindow e then concat [] (sandstormInstalledApps e) else [])
              ++ match getUser e this None with
                 | Some u => VStr <$> keys (installedApps u)
                 | None => []
                 end).
  assert (Installed_selector e this None = Some (id_in ids)) as Hsel.
  { unfold Installed_selector, ids.
    destruct (hasWindow e), (getUser e this None) as [u|]; simpl;
      try done; by rewrite (right_id_L [] (++)). }
  assert (∀ v, v ∈ ids ↔
            (hasWindow e = true ∧ v ∈ concat [] (sandstormInstalledApps e)) ∨
            (∃ u k, getUser e this None = Some u ∧ v = VStr k ∧
                    k ∈ dom (installedApps u))) as Hmem.
  { intros v. unfold ids. rewrite elem_of_app. split.
    - intros [Hv|Hv].
      + destruct (hasWindow e); [by left|by apply elem_of_nil in Hv].
      + destruct (getUser e this None) as [u|]; [|by apply elem_of_nil in Hv].
        apply list_elem_of_fmap in Hv as (k & -> & Hk).
        right. exists u, k. by rewrite <- elem_of_keys.
    - intros [[Hw Hv]|(u & k & Hu & -> & Hk)].
      + left. by rewrite Hw.
      + right. rewrite Hu. apply list_elem_of_fmap_2. by apply elem_of_keys. }
  exists ids. split; [exact Hsel|]. split; [exact Hmem|].
  split; [|split].
  - intros Hw Hu.
    assert (ids = []) as Hnil by (unfold ids; by rewrite Hw, Hu).
    split; [exact Hnil|].
    intros selector options s Hc Hsel' Hopt.
    assert (findWhere_name extraGenres "Installed" =
              Some {| eg_name := "Installed";
                      eg_selector := Computed Installed_selector;
                      eg_options := Static ∅;
                      eg_priority := 2; eg_showSummary := false |}) as Hg
      by reflexivity.
    destruct (extra_branch e "Installed" selector options this s _ Hc Hg
                Hsel' Hopt) as (ls & lo & s' & Hfind & Hone & _).
    cbv zeta in Hfind, Hone.
    assert (invoke (Computed Installed_selector) e this = Some (id_in []))
      as Hinv.
    { unfold invoke. by rewrite Hsel, Hnil. }
    cbn [eg_selector] in Hfind, Hone. rewrite Hinv in Hfind, Hone.
    rewrite Hfind, Hone. cbn [fst fetch]. unfold find_docs.
    rewrite run_query_nothing, sort_docs_nil; [done|].
    intros a. apply (id_in_nil_matches_nothing (supplied s selector) a).
  - intros local Hlocal.
    assert (∀ v, v ∈ ids → ∃ k, v = VStr k) as Hstr.
    { intros v Hv. apply Hmem in Hv as [[Hw Hv]|(u & k & _ & -> & _)].
      - rewrite (Hlocal Hw) in Hv. simpl in Hv.
        apply list_elem_of_fmap in Hv as (k & -> & _). by exists k.
      - by exists k. }
    split; [exact Hstr|]. intros k. rewrite Hmem. split.
    + intros [[Hw Hv]|(u & k' & Hu & [= <-] & Hk)].
      * left. split; [done|]. rewrite (Hlocal Hw) in Hv. simpl in Hv.
        by apply list_elem_of_fmap in Hv as (k' & [= <-] & Hk).
      * right. by exists u.
    + intros [[Hw Hk]|(u & Hu & Hk)].
      * left. split; [done|]. rewrite (Hlocal Hw). simpl.
        by apply list_elem_of_fmap_2.
      * right. by exists u, k.
  - intros Hw Hnone. apply Hmem. left. split; [done|]. rewrite Hnone. simpl.
    apply list_elem_of_here.
Qed.

(** A first visit: alice is logged in and the browser has persisted
    nothing. The id list starts with [undefined], which is neither a
    persisted id nor one of her keys. *)
Example Installed_first_visit :
  Installed_selector
    {| isClient := true; hasWindow := true; currentUserId := Some "u1";
       users := [Demo.alice]; Apps := [Demo.chess; Demo.notes];
       Categories := [Demo.games];
       sandstormInstalledApps := VUndefined; routeAuthorId := None;
       Apps_before := Demo.before |}
    noContext None
    = Some (id_in [VUndefined; VStr "a1"; VStr "a2"]).
Proof. vm_compute. reflexivity. Qed.

(** On the server with nobody logged in nothing is installed; in the
    browser the persisted ids come first, then the user's. *)
Example Installed_on_server :
  Installed_selector Demo.server noContext None = Some (id_in []) ∧
  fetch (Genres.findIn Demo.server "Installed" Undefined Undefined noContext []).1
    = [].
Proof. split; vm_compute; reflexivity. Qed.

Example Installed_in_browser :
  Installed_selector Demo.browser noContext None
    = Some (id_in (VStr <$> ["a2"; "a1"; "a2"])).
Proof. vm_compute. reflexivity. Qed.

(** A browser that has persisted nothing: [amplify.store] returns
    [undefined], which [concat] appends as an element. *)
Example Installed_nothing_persisted :
  Installed_selector
    {| isClient := true; hasWindow := true; currentUserId := None;
       users := []; Apps := []; Categories := [];
       sandstormInstalledApps := VUndefined; routeAuthorId := None;
       Apps_before := Demo.before |}
    noContext None
    = Some (id_in [VUndefined]).
Proof. reflexivity. Qed.

(** The ids a pushing [_.reduce] collects: the keys whose entry passes
    the test. *)
Lemma foldl_push_elem {A : Type} (keep : A → string → bool)
    (step : list string → A → string → list string)
    (kvs : list (string * A)) (acc : list string) (k : string) :
  (∀ acc d k, step acc d k = if keep d k then acc ++ [k] else acc) →
  k ∈ foldl (λ acc kv, step acc kv.2 kv.1) acc kvs ↔
    k ∈ acc ∨ ∃ d, (k, d) ∈ kvs ∧ keep d k = true.
Proof.
  intros Hstep. revert acc.
  induction kvs as [|[k' d'] kvs IH]; intros acc; simpl.
  - split; [by left|]. intros [?|(d & Hin & _)]; [done|].
    by apply elem_of_nil in Hin.
  - rewrite IH, Hstep. split.
    + intros [Hacc|(d & Hin & Hk)].
      * destruct (keep d' k') eqn:Hkeep; [|by left].
        apply elem_of_app in Hacc as [Hacc|Hk]; [by left|].
        apply list_elem_of_singleton in Hk as ->.
        right. exists d'. split; [apply list_elem_of_here|done].
      * right. exists d. split; [by apply list_elem_of_further|done].
    + intros [Hacc|(d & Hin & Hk)].
      * left. destruct (keep d' k'); [|done]. apply elem_of_app. by left.
      * apply elem_of_cons in Hin as [[= -> ->]|Hin].
        -- left. rewrite Hk. apply elem_of_app. right.
           by apply list_elem_of_singleton.
        -- right. by exists d.
Qed.

Lemma reduce_push_elem {A : Type} (keep : A → string → bool)
    (step : list string → A → string → list string)
    (m : gmap string A) (k : string) :
  (∀ acc d k, step acc d k = if keep d k then acc ++ [k] else acc) →
  k ∈ reduce m step [] ↔ ∃ d, m !! k = Some d ∧ keep d k = true.
Proof.
  intros Hstep. unfold reduce.
  rewrite (foldl_push_elem keep step _ _ _ Hstep). split.
  - intros [Hnil|(d & Hin & Hk)]; [by apply elem_of_nil in Hnil|].
    exists d. split; [by apply elem_of_map_to_list|done].
  - intros (d & Hd & Hk). right. exists d.
    split; [by apply elem_of_map_to_list|done].
Qed.

Lemma updatesAvailable_ids_elem (e : env) (u : user) (k : string) :
  k ∈ updatesAvailable_ids e u ↔
    ∃ d current, installedApps u !! k = Some d ∧
      Apps_findOne_id e k = Some current ∧
      dateTime (version d) < dateTime (latestVersion current).
Proof.
  unfold updatesAvailable_ids.
  rewrite (reduce_push_elem (λ d appId,
    match Apps_findOne_id e appId with
    | Some current =>
        dateTime (version d) <? dateTime (latestVersion current)
    | None => false
    end)).
  - split.
    + intros (d & Hd & Hk). destruct (Apps_findOne_id e k) as [cur|]; [|done].
      exists d, cur. split; [done|]. split; [done|]. by apply Z.ltb_lt.
    + intros (d & cur & Hd & Hcur & Hlt). exists d. split; [done|].
      rewrite Hcur. by apply Z.ltb_lt.
  - intros acc d k'. by destruct (Apps_findOne_id e k').
Qed.

Lemma noUpdates_ids_elem (e : env) (u : user) (k : string) :
  k ∈ noUpdates_ids e u ↔
    ∃ d current, installedApps u !! k = Some d ∧
      Apps_findOne_id e k = Some current ∧
      dateTime (version d) >= dateTime (latestVersion current).
Proof.
  unfold noUpdates_ids.
  rewrite (reduce_push_elem (λ d appId,
    match Apps_findOne_id e appId with
    | Some current =>
        dateTime (version d) >=? dateTime (latestVersion current)
    | None => false
    end)).
  - split.
    + intros (d & Hd & Hk). destruct (Apps_findOne_id e k) as [cur|]; [|done].
      exists d, cur. split; [done|]. split; [done|].
      apply Z.geb_le in Hk. lia.
    + intros (d & cur & Hd & Hcur & Hge). exists d. split; [done|].
      rewrite Hcur. apply Z.geb_le. lia.
  - intros acc d k'. by destruct (Apps_findOne_id e k').
Qed.

(** C3. For a resolved user, an installed application [A] with installed
    timestamp [t1] and a catalog entity whose latest version has
    timestamp [t2]: [A] is in the id list of "Updates Available" exactly
    when [t1 < t2], and in the id list of "No Updates" exactly when
    [t1 >= t2]; at [t1 = t2] it is under "No Updates" only. *)
Theorem update_genres_split (e : env) (this : context) (u : user)
    (A : string) (d : appDetails) (current : app) :
  getUser e this None = Some u →
  installedApps u !! A = Some d →
  Apps_findOne_id e A = Some current →
  let t1 := dateTime (version d) in
  let t2 := dateTime (latestVersion current) in
  ∃ updates noUpdates : list string,
    UpdatesAvailable_selector e this None = Some (id_in (VStr <$> updates)) ∧
    NoUpdates_selector e this None = Some (id_in (VStr <$> noUpdates)) ∧
    (A ∈ updates ↔ t1 < t2) ∧
    (A ∈ noUpdates ↔ t1 >= t2) ∧
    (t1 = t2 → A ∈ noUpdates ∧ A ∉ updates).
Proof.
  intros Hu Hd Hcur t1 t2.
  exists (updatesAvailable_ids e u), (noUpdates_ids e u).
  unfold UpdatesAvailable_selector, NoUpdates_selector. rewrite Hu.
  split; [done|]. split; [done|].
  assert (A ∈ updatesAvailable_ids e u ↔ t1 < t2) as Hup.
  { rewrite updatesAvailable_ids_elem. split.
    - intros (d' & cur' & Hd' & Hcur' & Hlt). by simplify_eq.
    - intros Hlt. by exists d, current. }
  assert (A ∈ noUpdates_ids e u ↔ t1 >= t2) as Hno.
  { rewrite noUpdates_ids_elem. split.
    - intros (d' & cur' & Hd' & Hcur' & Hge). by simplify_eq.
    - intros Hge. by exists d, current. }
  split; [done|]. split; [done|].
  intros Heq. rewrite Hup, Hno. lia.
Qed.

Lemma update_genres_split_witness :
  let t1 := dateTime (version {| version := {| dateTime := 150 |} |}) in
  let t2 := dateTime (latestVersion Demo.notes) in
  ∃ updates noUpdates : list string,
    UpdatesAvailable_selector Demo.server Demo.asAlice None
      = Some (id_in (VStr <$> updates)) ∧
    NoUpdates_selector Demo.server Demo.asAlice None
      = Some (id_in (VStr <$> noUpdates)) ∧
    ("a2" ∈ updates ↔ t1 < t2) ∧
    ("a2" ∈ noUpdates ↔ t1 >= t2) ∧
    (t1 = t2 → "a2" ∈ noUpdates ∧ "a2" ∉ updates).
Proof.
  apply (update_genres_split Demo.server Demo.asAlice Demo.alice "a2"
           {| version := {| dateTime := 150 |} |} Demo.notes);
    reflexivity.
Defined.

(** Alice runs an old chess and the latest notes. *)
Example update_genres_of_alice :
  UpdatesAvailable_selector Demo.server Demo.asAlice None
    = Some (id_in [VStr "a1"]) ∧
  NoUpdates_selector Demo.server Demo.asAlice None
    = Some (id_in [VStr "a2"]).
Proof. split; vm_compute; reflexivity. Qed.

(** C10. In the category branch [findIn] and [findOneIn] extend the
    caller's selector object itself: after the call it carries
    [categories], set to the category's name, and [findIn] queries that
    very object. In the extra-genre branch the merge goes into a new
    object and the caller's selector is as before. *)
Theorem category_branch_mutates_selector (e : env) (c : category) (l : nat)
    (F : obj) (options : jsarg) (context : context) (s : store) :
  c ∈ Categories e →
  s !! l = Some F →
  arg_ok s options →
  let F' := <["categories" := VStr (cat_name c)]> F in
  (Genres.findIn e (cat_name c) (Ref l) options context s).2 !! l = Some F' ∧
  find_selector (Genres.findIn e (cat_name c) (Ref l) options context s).1
    = Ref l ∧
  (Genres.findOneIn e (cat_name c) (Ref l) options context s).2 !! l = Some F' ∧
  (∀ name g,
     Categories_findOne e name = None →
     findWhere_name extraGenres name = Some g →
     (Genres.findIn e name (Ref l) options context s).2 !! l = Some F ∧
     find_selector (Genres.findIn e name (Ref l) options context s).1 ≠ Ref l ∧
     (Genres.findOneIn e name (Ref l) options context s).2 !! l = Some F).
Proof.
  intros Hin Hl Hopt F'.
  assert (arg_ok s (Ref l)) as Hsel by (by exists F).
  destruct (find_name_elem cat_name (Categories e) c Hin) as (c' & Hfind & Hname).
  fold (Categories_findOne e (cat_name c)) in Hfind.
  destruct (category_branch_store s (Ref l) options c' Hsel Hopt)
    as (l' & s1 & lo & s2 & E1 & E2 & Hl' & Hsame & _).
  rewrite Hname in Hl'. specialize (Hsame l eq_refl) as ->.
  unfold supplied in Hl'. simpl in Hl'. rewrite Hl in Hl'. simpl in Hl'.
  rewrite (findIn_category _ _ _ _ _ _ c'), (findOneIn_category _ _ _ _ _ _ c')
    by done.
  rewrite E1, E2. simpl.
  split; [done|]. split; [done|]. split; [done|].
  intros name g Hc Hg.
  destruct (extra_branch e name (Ref l) options context s g Hc Hg Hsel Hopt)
    as (ls & lo' & s' & Hfi & Hfo & _ & _ & Hkeep & Hfresh & _).
  simpl in Hfi, Hfo. rewrite Hfi, Hfo. simpl.
  split; [by apply Hkeep|]. split; [|by apply Hkeep].
  intros [= ->]. apply lookup_lt_Some in Hl. lia.
Qed.

Lemma category_branch_mutates_selector_witness :
  let F' := <["categories" := VStr "Games"]>
              ({[ "categories" := VStr "Office"; "approved" := VNum 1 ]} : obj) in
  (Genres.findIn Demo.server "Games" (Ref 0%nat) (Ref 1%nat) noContext
     Demo.callerStore).2 !! 0%nat = Some F' ∧
  find_selector (Genres.findIn Demo.server "Games" (Ref 0%nat) (Ref 1%nat)
                   noContext Demo.callerStore).1 = Ref 0%nat ∧
  (Genres.findOneIn Demo.server "Games" (Ref 0%nat) (Ref 1%nat) noContext
     Demo.callerStore).2 !! 0%nat = Some F' ∧
  (∀ name g,
     Categories_findOne Demo.server name = None →
     findWhere_name extraGenres name = Some g →
     (Genres.findIn Demo.server name (Ref 0%nat) (Ref 1%nat) noContext
        Demo.callerStore).2 !! 0%nat
       = Some {[ "categories" := VStr "Office"; "approved" := VNum 1 ]} ∧
     find_selector (Genres.findIn Demo.server name (Ref 0%nat) (Ref 1%nat)
                      noContext Demo.callerStore).1 ≠ Ref 0%nat ∧
     (Genres.findOneIn Demo.server name (Ref 0%nat) (Ref 1%nat) noContext
        Demo.callerStore).2 !! 0%nat
       = Some {[ "categories" := VStr "Office"; "approved" := VNum 1 ]}).
Proof.
  apply (category_branch_mutates_selector Demo.server Demo.games 0%nat
           {[ "categories" := VStr "Office"; "approved" := VNum 1 ]}
           (Ref 1%nat) noContext Demo.callerStore).
  - apply list_elem_of_here.
  - reflexivity.
  - simpl. eexists. reflexivity.
Defined.

(** "Popular" leaves the caller's selector alone and queries a copy. *)
Example extra_genre_leaves_selector :
  (Genres.findIn Demo.server "Popular" (Ref 0%nat) (Ref 1%nat) noContext
     Demo.callerStore).2 !! 0%nat
    = Some {[ "categories" := VStr "Office"; "approved" := VNum 1 ]} ∧
  find_selector (Genres.findIn Demo.server "Popular" (Ref 0%nat) (Ref 1%nat)
                   noContext Demo.callerStore).1 = Ref 2%nat.
Proof. split; vm_compute; reflexivity. Qed.

(** ** Claims about [getOne] and [getAll] *)

Lemma findWhere_name_unique (g : extraGenre) :
  g ∈ extraGenres → findWhere_name extraGenres (eg_name g) = Some g.
Proof.
  intros Hin. apply list_elem_of_In in Hin. simpl in Hin.
  repeat (destruct Hin as [<-|Hin]; [reflexivity|]). destruct Hin.
Qed.

(** C8. [getOne] returns a category of the given name when there is
    one; it returns the extra genre of that name only when no category
    has the name; it returns nothing when neither exists. *)
Theorem getOne_prefers_category (e : env) (name : string) :
  (∀ c, c ∈ Categories e → cat_name c = name →
     ∃ c', Genres.getOne e name = Some (GCategory c') ∧
           c' ∈ Categories e ∧ cat_name c' = name) ∧
  (∀ g, Genres.getOne e name = Some (GExtra g) →
     g ∈ extraGenres ∧ eg_name g = name ∧
     ∀ c, c ∈ Categories e → cat_name c ≠ name) ∧
  (∀ g, (∀ c, c ∈ Categories e → cat_name c ≠ name) →
     g ∈ extraGenres → eg_name g = name →
     Genres.getOne e name = Some (GExtra g)) ∧
  ((∀ c, c ∈ Categories e → cat_name c ≠ name) →
   (∀ g, g ∈ extraGenres → eg_name g ≠ name) →
   Genres.getOne e name = None).
Proof.
  unfold Genres.getOne, Categories_findOne.
  split; [|split; [|split]].
  - intros c Hin <-.
    destruct (find_name_elem cat_name (Categories e) c Hin) as (c' & Hf & Hn).
    exists c'. rewrite Hf. split; [done|]. split; [|done].
    by apply find_name_Some in Hf as [? _].
  - intros g Hget.
    destruct (find _ (Categories e)) eqn:Hc; [done|].
    destruct (findWhere_name extraGenres name) as [g'|] eqn:Hg; [|done].
    simpl in Hget. injection Hget as ->.
    apply find_name_Some in Hg as [Hin Hname].
    split; [done|]. split; [done|]. by apply (find_name_None cat_name).
  - intros g Hc Hin <-. apply (find_name_None cat_name) in Hc.
    rewrite Hc. by rewrite findWhere_name_unique.
  - intros Hc Hg. apply (find_name_None cat_name) in Hc.
    apply (find_name_None eg_name) in Hg. unfold findWhere_name.
    by rewrite Hc, Hg.
Qed.

Lemma getOne_prefers_category_witness :
  ∃ c', Genres.getOne Demo.server "Games" = Some (GCategory c') ∧
        c' ∈ Categories Demo.server ∧ cat_name c' = "Games".
Proof.
  apply (proj1 (getOne_prefers_category Demo.server "Games") Demo.games).
  - apply list_elem_of_here.
  - reflexivity.
Defined.

(** A category called "Popular" hides the extra genre of that name. *)
Example getOne_collision :
  let popular := {| cat_name := "Popular"; cat_fields := ∅ |} in
  let e := {| isClient := false; hasWindow := false; currentUserId := None;
              users := []; Apps := []; Categories := [Demo.games; popular];
              sandstormInstalledApps := VUndefined; routeAuthorId := None;
       Apps_before := Demo.before |} in
  Genres.getOne e "Popular" = Some (GCategory popular).
Proof. reflexivity. Qed.

(** *** [_.sortBy] sorts *)

#[global] Instance crit_le_trans : Transitive crit_le.
Proof. intros [x|] [y|] [z|]; simpl; try done. lia. Qed.


Lemma sortBy_cmp_total {A : Type} (x y : ranked A) :
  sortBy_cmp x y ≤ 0 ∨ sortBy_cmp y x ≤ 0.
Proof.
  unfold sortBy_cmp.
  destruct (r_criteria x) as [a|], (r_criteria y) as [b|]; simpl;
    repeat case_bool_decide; simplify_eq; simpl; try lia;
    destruct (Z.ltb_spec b a), (Z.ltb_spec a b); simpl; lia.
Qed.

Lemma sortBy_cmp_crit_le {A : Type} (x y : ranked A) :
  sortBy_cmp x y ≤ 0 → crit_le (r_criteria x) (r_criteria y).
Proof.
  unfold sortBy_cmp.
  destruct (r_criteria x) as [a|], (r_criteria y) as [b|]; simpl;
    repeat case_bool_decide; simplify_eq; simpl; try lia; try done;
    destruct (Z.ltb_spec b a), (Z.ltb_spec a b); simpl; lia.
Qed.

Lemma pluck_ranked {A : Type} (f : A → option Z) (g : nat → nat) (l : list A) :
  r_value <$> imap (λ i v, Ranked v (g i) (f v)) l = l.
Proof.
  revert g. induction l as [|x l IH]; intros g; simpl; [done|].
  f_equal. apply (IH (g ∘ S)).
Qed.

Lemma ranked_criteria {A : Type} (f : A → option Z) (g : nat → nat) (l : list A) :
  Forall (λ r, r_criteria r = f (r_value r))
    (imap (λ i v, Ranked v (g i) (f v)) l).
Proof.
  revert g. induction l as [|x l IH]; intros g; simpl; constructor; [done|].
  apply (IH (g ∘ S)).
Qed.

Lemma pluck_tagged {A : Type} (f : A → option Z) (l : list A) :
  r_value <$> imap (λ i v, Ranked v i (f v)) l = l.
Proof. exact (pluck_ranked f id l). Qed.

Lemma tagged_criteria {A : Type} (f : A → option Z) (l : list A) :
  Forall (λ r, r_criteria r = f (r_value r))
    (imap (λ i v, Ranked v i (f v)) l).
Proof. exact (ranked_criteria f id l). Qed.

Lemma sortBy_perm {A : Type} (l : list A) (f : A → option Z) :
  sortBy l f ≡ₚ l.
Proof.
  unfold sortBy. rewrite array_sort_perm.
  by rewrite pluck_tagged.
Qed.

Lemma Sorted_pluck {A : Type} (f : A → option Z) (rs : list (ranked A)) :
  Forall (λ r, r_criteria r = f (r_value r)) rs →
  Sorted (λ u v, sortBy_cmp u v ≤ 0) rs →
  Sorted (λ a b, crit_le (f a) (f b)) (r_value <$> rs).
Proof.
  intros Hall Hs. induction Hs as [|r rs Hs IH Hhd]; simpl; [constructor|].
  inversion Hall as [|? ? Hr Hrs]; subst.
  constructor; [by apply IH|].
  destruct Hhd as [|r' rs' Hle]; simpl; constructor.
  inversion Hrs as [|? ? Hr' _]; subst.
  rewrite <- Hr, <- Hr'. by apply sortBy_cmp_crit_le.
Qed.

Lemma sortBy_sorted {A : Type} (l : list A) (f : A → option Z) :
  StronglySorted (λ a b, crit_le (f a) (f b)) (sortBy l f).
Proof.
  apply Sorted_StronglySorted.
  { intros a b c. apply crit_le_trans. }
  unfold sortBy. apply Sorted_pluck.
  - apply Forall_forall. intros r Hin. rewrite array_sort_perm in Hin.
    revert r Hin. apply Forall_forall, tagged_criteria.
  - apply array_sort_Sorted, sortBy_cmp_total.
Qed.

(** C7. [getAll()] with no options is the list of the extra genres, in
    the order of their declaration, followed by the categories in catalog
    order. With an [iteratee] the result holds the same descriptors as
    the call without it (after the same narrowing by [where] and
    [filter]), in ascending order of their criteria. *)
Theorem getAll_order (e : env) :
  Genres.getAll e noOptions =
    (GExtra <$> extraGenres) ++ (GCategory <$> Categories e) ∧
  eg_name <$> extraGenres =
    ["All"; "Popular"; "New"; "New & Updated"; "This Week"; "Installed";
     "Updates Available"; "No Updates"; "Apps By Me"; "Apps By Author"] ∧
  (∀ (w : option (list (string * value))) (p : option (genre → bool))
     (f : genre → option Z),
     let sorted :=
       Genres.getAll e {| opt_where := w; opt_filter := p; opt_iteratee := Some f |} in
     let narrowed :=
       Genres.getAll e {| opt_where := w; opt_filter := p; opt_iteratee := None |} in
     sorted ≡ₚ narrowed ∧
     StronglySorted (λ a b, crit_le (f a) (f b)) sorted) ∧
  (∀ f : genre → option Z,
     Genres.getAll e {| opt_where := None; opt_filter := None;
                        opt_iteratee := Some f |}
       ≡ₚ (GExtra <$> extraGenres) ++ (GCategory <$> Categories e)).
Proof.
  split; [reflexivity|]. split; [reflexivity|]. split.
  - intros w p f. unfold Genres.getAll. simpl.
    split; [apply sortBy_perm|apply sortBy_sorted].
  - intros f. unfold Genres.getAll. simpl. apply sortBy_perm.
Qed.

(** By priority: the genres of priority 0 first, then 1, then 2, each
    group in declaration order; a category has no priority and goes
    last. *)
Example getAll_by_priority :
  genre_name <$> Genres.getAll Demo.server
    {| opt_where := None; opt_filter := None;
       opt_iteratee := Some (λ g, match g with
                                  | GExtra x => Some (eg_priority x)
                                  | GCategory _ => None
                                  end) |}
    = ["Popular"; "New & Updated"; "This Week"; "Updates Available";
       "No Updates"; "Apps By Me"; "Apps By Author"; "All"; "New";
       "Installed"; "Games"].
Proof. vm_compute. reflexivity. Qed.

Example getAll_where_showSummary :
  genre_name <$> Genres.getAll Demo.server
    {| opt_where := Some [("showSummary", VBool true)]; opt_filter := None;
       opt_iteratee := None |}
    = ["Popular"; "New & Updated"].
Proof. vm_compute. reflexivity. Qed.

(** ** Claims about the upload directive *)

(** C9. A logged-in user [u] uploading the file [n] at time [t] is
    authorized and the storage key is ["images/" + u + "_" + t + "_" + n],
    with [t] in decimal; without a logged-in user [authorize] raises the
    error "Login Required" with its message, and the upload request ends
    with that error and no key. *)
Theorem upload_key_and_authorization (u n : string) (t : Z) :
  u ≠ "" →
  let this := {| imageUploader.userId := Some u |} in
  let anonymous := {| imageUploader.userId := None |} in
  let file := {| imageUploader.name := n |} in
  let loginRequired :=
    {| imageUploader.error := "Login Required";
       imageUploader.reason := "Please login before posting files" |} in
  imageUploader.authorize this = inr true ∧
  imageUploader.key this t file
    = "images/" +:+ u +:+ "_" +:+ pretty t +:+ "_" +:+ n ∧
  imageUploader.requestUpload this t file
    = inr ("images/" +:+ u +:+ "_" +:+ pretty t +:+ "_" +:+ n) ∧
  imageUploader.authorize anonymous = inl loginRequired ∧
  imageUploader.requestUpload anonymous t file = inl loginRequired ∧
  imageUploader.key {| imageUploader.userId := Some "u1" |} 1000
    {| imageUploader.name := "photo.png" |} = "images/u1_1000_photo.png".
Proof.
  intros Hu. simpl.
  assert (imageUploader.authorize {| imageUploader.userId := Some u |}
            = inr true) as Hauth.
  { unfold imageUploader.authorize, imageUploader.truthy. simpl.
    apply String.eqb_neq in Hu. by rewrite Hu. }
  split; [done|]. split; [done|]. split.
  { unfold imageUploader.requestUpload. by rewrite Hauth. }
  split; [done|]. split; [done|]. vm_compute. reflexivity.
Qed.

Lemma upload_key_and_authorization_witness :
  let this := {| imageUploader.userId := Some "u1" |} in
  let anonymous := {| imageUploader.userId := None |} in
  let file := {| imageUploader.name := "photo.png" |} in
  let loginRequired :=
    {| imageUploader.error := "Login Required";
       imageUploader.reason := "Please login before posting files" |} in
  imageUploader.authorize this = inr true ∧
  imageUploader.key this 1000 file
    = "images/" +:+ "u1" +:+ "_" +:+ pretty 1000 +:+ "_" +:+ "photo.png" ∧
  imageUploader.requestUpload this 1000 file
    = inr ("images/" +:+ "u1" +:+ "_" +:+ pretty 1000 +:+ "_" +:+ "photo.png") ∧
  imageUploader.authorize anonymous = inl loginRequired ∧
  imageUploader.requestUpload anonymous 1000 file = inl loginRequired ∧
  imageUploader.key {| imageUploader.userId := Some "u1" |} 1000
    {| imageUploader.name := "photo.png" |} = "images/u1_1000_photo.png".
Proof.
  apply (upload_key_and_authorization "u1" "photo.png" 1000).
  discriminate.
Defined.

(** * Further properties *)

(** ** What a selector selects *)

Lemma doc_matches_spec (sel : obj) (a : app) :
  doc_matches sel a = true ↔
    ∀ k c, sel !! k = Some c → cond_matches c (app_field a k) = true.
Proof.
  unfold doc_matches. rewrite forallb_forall. split.
  - intros Hall k c Hk.
    apply elem_of_map_to_list, list_elem_of_In in Hk. apply (Hall _ Hk).
  - intros Hall [k c] Hin. simpl.
    apply list_elem_of_In, elem_of_map_to_list in Hin. by apply Hall.
Qed.

Lemma doc_matches_insert (k : string) (c : value) (F : obj) (a : app) :
  doc_matches (<[k := c]> F) a = true ↔
    cond_matches c (app_field a k) = true ∧ doc_matches (delete k F) a = true.
Proof.
  rewrite !doc_matches_spec. split.
  - intros Hall. split.
    + apply Hall. by rewrite lookup_insert_eq.
    + intros k' c' Hk'. rewrite lookup_delete in Hk'.
      case_decide; [done|]. apply Hall. by rewrite lookup_insert_ne.
  - intros [Hk Hrest] k' c' Hk'. rewrite lookup_insert in Hk'.
    case_decide; simplify_eq; [done|].
    apply Hrest. by rewrite lookup_delete_ne.
Qed.

Lemma elem_of_run_query (e : env) (sel : obj) (a : app) :
  a ∈ run_query e (Some sel) ↔ a ∈ Apps e ∧ doc_matches sel a = true.
Proof.
  unfold run_query. rewrite list_elem_of_filter.
  rewrite Is_true_true. tauto.
Qed.

Lemma existsb_prim_eqb_str (n : string) (cs : list string) :
  existsb (prim_eqb (VStr n)) (VStr <$> cs) = true ↔ n ∈ cs.
Proof.
  rewrite existsb_exists. split.
  - intros (v & Hin & Heq). apply list_elem_of_In, list_elem_of_fmap in Hin.
    destruct Hin as (c & -> & Hin). simpl in Heq.
    by apply String.eqb_eq in Heq as ->.
  - intros Hin. exists (VStr n). split.
    + by apply list_elem_of_In, list_elem_of_fmap_2.
    + simpl. apply String.eqb_refl.
Qed.

Lemma cond_matches_in_ids (ids : list string) (i : string) :
  cond_matches (VObj {[ "$in" := VArr (VStr <$> ids) ]}) (VStr i) = true ↔
    i ∈ ids.
Proof.
  simpl. rewrite lookup_singleton_eq, existsb_exists. split.
  - intros (v & Hin & Heq). apply list_elem_of_In, list_elem_of_fmap in Hin.
    destruct Hin as (c & -> & Hin). simpl in Heq.
    by apply String.eqb_eq in Heq as <-.
  - intros Hin. exists (VStr i). split.
    + by apply list_elem_of_In, list_elem_of_fmap_2.
    + simpl. apply String.eqb_refl.
Qed.

(** The documents of an id-membership filter merged over [F]. *)
Lemma id_in_selects (e : env) (ids : list string) (F : obj) (a : app) :
  a ∈ run_query e (Some (extend_obj F (Some (id_in (VStr <$> ids))))) ↔
    a ∈ Apps e ∧ app_id a ∈ ids ∧ doc_matches (delete "_id" F) a = true.
Proof.
  rewrite elem_of_run_query. unfold id_in. simpl.
  rewrite <- insert_union_singleton_l, doc_matches_insert.
  change (app_field a "_id") with (VStr (app_id a)).
  rewrite cond_matches_in_ids. tauto.
Qed.

(** ** The documents each genre finds *)

(** The result of [findIn] in the extra-genre branch, by the object the
    genre's selector evaluates to. *)
Lemma findIn_extra_fetch (e : env) (g : extraGenre) (G : option obj)
    (selector options : jsarg) (context : context) (s : store) :
  g ∈ extraGenres →
  Categories_findOne e (eg_name g) = None →
  invoke (eg_selector g) e context = G →
  arg_ok s selector → arg_ok s options →
  fetch (Genres.findIn e (eg_name g) selector options context s).1 =
    find_docs e (Some (extend_obj (supplied s selector) G))
      (Some (extend_obj (supplied s options) (invoke (eg_options g) e context))).
Proof.
  intros Hin Hc HG Hsel Hopt.
  destruct (extra_branch e (eg_name g) selector options context s g Hc
              (findWhere_name_unique g Hin) Hsel Hopt)
    as (ls & lo & s' & Hfind & _).
  cbv zeta in Hfind. rewrite HG in Hfind. by rewrite Hfind.
Qed.

(** The same, as a selection: the order of the cursor set aside. *)
Lemma findIn_extra_elem (e : env) (g : extraGenre) (G : option obj)
    (selector options : jsarg) (context : context) (s : store) (a : app) :
  g ∈ extraGenres →
  Categories_findOne e (eg_name g) = None →
  invoke (eg_selector g) e context = G →
  arg_ok s selector → arg_ok s options →
  a ∈ fetch (Genres.findIn e (eg_name g) selector options context s).1 ↔
    a ∈ run_query e (Some (extend_obj (supplied s selector) G)).
Proof.
  intros Hin Hc HG Hsel Hopt.
  rewrite (findIn_extra_fetch e g G) by done. by rewrite find_docs_perm.
Qed.

Ltac in_extraGenres :=
  apply list_elem_of_In; simpl;
  repeat first [left; reflexivity | right].

(** X1. The genres with a static selector ("All", "Popular", "New",
    "New & Updated", "This Week") add no restriction: the cursor holds
    the documents that the supplied selector selects, in the order the
    store gives them under the genre's options merged over the caller's;
    with no selector supplied these are the documents of the whole
    catalog. When the genre's options carry a sort, the order is the
    genre's, whatever the caller's options ask for. *)
Theorem static_genre_selects_like_caller (e : env) (g : extraGenre) (o : obj)
    (selector options : jsarg) (context : context) (s : store) :
  g ∈ extraGenres →
  eg_selector g = Static o →
  Categories_findOne e (eg_name g) = None →
  arg_ok s selector → arg_ok s options →
  let found := fetch (Genres.findIn e (eg_name g) selector options context s).1 in
  found = find_docs e (Some (supplied s selector))
            (Some (extend_obj (supplied s options)
                     (invoke (eg_options g) e context))) ∧
  (∀ a, a ∈ found ↔
        a ∈ Apps e ∧ doc_matches (supplied s selector) a = true) ∧
  (deref s selector = None → found ≡ₚ Apps e) ∧
  (∀ O, eg_options g = Static O → is_Some (O !! "sort") →
        found = find_docs e (Some (supplied s selector)) (Some O)).
Proof.
  intros Hin Hstatic Hc Hsel Hopt found.
  assert (o = ∅) as ->.
  { apply list_elem_of_In in Hin. simpl in Hin.
    repeat (destruct Hin as [<-|Hin]; [by simplify_eq/=|]). destruct Hin. }
  assert (found = find_docs e (Some (supplied s selector))
            (Some (extend_obj (supplied s options)
                     (invoke (eg_options g) e context)))) as Hfetch.
  { unfold found. rewrite (findIn_extra_fetch e g (Some ∅)); try done.
    - cbn [extend_obj]. by rewrite (left_id_L ∅ (∪)).
    - by rewrite Hstatic. }
  split; [exact Hfetch|]. split; [|split].
  - intros a. rewrite Hfetch, find_docs_perm. apply elem_of_run_query.
  - intros Hnone. rewrite Hfetch, find_docs_perm. unfold supplied.
    rewrite Hnone. by rewrite run_query_empty_selector.
  - intros O HO [spec Hspec]. rewrite Hfetch. apply sort_docs_ext.
    rewrite HO. cbn [invoke mbind option_bind].
    by rewrite extend_obj_lookup, Hspec.
Qed.

Lemma static_genre_selects_like_caller_witness :
  let found := fetch (Genres.findIn Demo.server "Popular" (Ref 0%nat)
                        (Ref 1%nat) noContext Demo.callerStore).1 in
  found = find_docs Demo.server (Some (supplied Demo.callerStore (Ref 0%nat)))
            (Some (extend_obj (supplied Demo.callerStore (Ref 1%nat))
                     (invoke (Static (sort_desc "installCount")) Demo.server
                        noContext))) ∧
  (∀ a, a ∈ found ↔
        a ∈ Apps Demo.server ∧
        doc_matches (supplied Demo.callerStore (Ref 0%nat)) a = true) ∧
  (deref Demo.callerStore (Ref 0%nat) = None → found ≡ₚ Apps Demo.server) ∧
  (∀ O, Static (sort_desc "installCount") = Static O → is_Some (O !! "sort") →
        found = find_docs Demo.server
                  (Some (supplied Demo.callerStore (Ref 0%nat))) (Some O)).
Proof.
  apply (static_genre_selects_like_caller Demo.server
           {| eg_name := "Popular"; eg_selector := Static ∅;
              eg_options := Static (sort_desc "installCount");
              eg_priority := 0; eg_showSummary := true |} ∅
           (Ref 0%nat) (Ref 1%nat) noContext Demo.callerStore).
  - in_extraGenres.
  - reflexivity.
  - reflexivity.
  - simpl. eexists. reflexivity.
  - simpl. eexists. reflexivity.
Defined.

(** "Popular" lists the most installed application first, "New" the
    latest. *)
Example Popular_and_New_on_demo :
  app_id <$> fetch (Genres.findIn Demo.server "Popular" Undefined Undefined
                      noContext []).1 = ["a2"; "a1"] ∧
  app_id <$> fetch (Genres.findIn Demo.server "New" Undefined Undefined
                      noContext []).1 = ["a1"; "a2"] ∧
  app_id <$> (Genres.findOneIn Demo.server "Popular" Undefined Undefined
                noContext []).1 = Some "a2".
Proof. repeat split; vm_compute; reflexivity. Qed.

(** X2. For a registered category the cursor holds exactly the
    applications of the catalog that carry the category's name in
    [categories] and satisfy the other conditions of the supplied
    selector; a [categories] condition of the caller plays no part. *)
Theorem findIn_category_result (e : env) (c : category)
    (selector options : jsarg) (context : context) (s : store) (a : app) :
  c ∈ Categories e →
  arg_ok s selector → arg_ok s options →
  a ∈ fetch (Genres.findIn e (cat_name c) selector options context s).1 ↔
    a ∈ Apps e ∧ cat_name c ∈ categories a ∧
    doc_matches (delete "categories" (supplied s selector)) a = true.
Proof.
  intros Hin Hsel Hopt.
  destruct (find_name_elem cat_name (Categories e) c Hin) as (c' & Hfind & Hname).
  fold (Categories_findOne e (cat_name c)) in Hfind.
  destruct (category_branch_store s selector options c' Hsel Hopt)
    as (l & s1 & lo & s2 & E1 & E2 & Hl & _).
  rewrite (findIn_category _ _ _ _ _ _ c') by done.
  rewrite E1, E2. cbn [fst fetch]. rewrite Hl, Hname.
  rewrite find_docs_perm, elem_of_run_query, doc_matches_insert.
  change (app_field a "categories") with (VArr (VStr <$> categories a)).
  simpl. rewrite existsb_prim_eqb_str. tauto.
Qed.

Lemma findIn_category_result_witness :
  Demo.chess ∈ fetch (Genres.findIn Demo.server "Games" (Ref 0%nat) (Ref 1%nat)
                        noContext Demo.callerStore).1 ↔
    Demo.chess ∈ Apps Demo.server ∧ "Games" ∈ categories Demo.chess ∧
    doc_matches (delete "categories" (supplied Demo.callerStore (Ref 0%nat)))
      Demo.chess = true.
Proof.
  apply (findIn_category_result Demo.server Demo.games (Ref 0%nat) (Ref 1%nat)
           noContext Demo.callerStore Demo.chess).
  - apply list_elem_of_here.
  - simpl. eexists. reflexivity.
  - simpl. eexists. reflexivity.
Defined.

(** X3. "Apps By Me" with a resolved user: the cursor holds exactly the
    applications whose author is the user's id and that satisfy the other
    conditions of the supplied selector. *)
Theorem AppsByMe_result (e : env) (this : context) (u : user)
    (selector options : jsarg) (s : store) (a : app) :
  Categories_findOne e "Apps By Me" = None →
  getUser e this None = Some u →
  arg_ok s selector → arg_ok s options →
  a ∈ fetch (Genres.findIn e "Apps By Me" selector options this s).1 ↔
    a ∈ Apps e ∧ author a = user_id u ∧
    doc_matches (delete "author" (supplied s selector)) a = true.
Proof.
  intros Hc Hu Hsel Hopt.
  rewrite (findIn_extra_elem e
             {| eg_name := "Apps By Me";
                eg_selector := Computed AppsByMe_selector; eg_options := Absent;
                eg_priority := 0; eg_showSummary := false |}
             (Some {[ "author" := VStr (user_id u) ]})); try done.
  - rewrite elem_of_run_query. simpl.
    rewrite <- insert_union_singleton_l, doc_matches_insert.
    change (app_field a "author") with (VStr (author a)). simpl.
    rewrite String.eqb_eq. split; intros (? & ? & ?); done.
  - in_extraGenres.
  - simpl. unfold AppsByMe_selector. by rewrite Hu.
Qed.

Lemma AppsByMe_result_witness :
  Demo.chess ∈ fetch (Genres.findIn Demo.server "Apps By Me" Undefined Undefined
                        Demo.asAlice []).1 ↔
    Demo.chess ∈ Apps Demo.server ∧ author Demo.chess = user_id Demo.alice ∧
    doc_matches (delete "author" (supplied [] Undefined)) Demo.chess = true.
Proof.
  apply (AppsByMe_result Demo.server Demo.asAlice Demo.alice Undefined Undefined
           [] Demo.chess); [reflexivity | reflexivity | exact I | exact I].
Defined.

(** *** The update genres *)

Lemma foldl_push_NoDup {A : Type} (keep : A → string → bool)
    (step : list string → A → string → list string)
    (kvs : list (string * A)) (acc : list string) :
  (∀ acc d k, step acc d k = if keep d k then acc ++ [k] else acc) →
  NoDup kvs.*1 → NoDup acc → (∀ k, k ∈ acc → k ∉ kvs.*1) →
  NoDup (foldl (λ acc kv, step acc kv.2 kv.1) acc kvs).
Proof.
  intros Hstep. revert acc.
  induction kvs as [|[k d] kvs IH]; intros acc Hkvs Hacc Hsep; simpl; [done|].
  simpl in Hkvs. apply NoDup_cons in Hkvs as [Hk Hkvs].
  apply IH; [done| |].
  - rewrite Hstep. destruct (keep d k); [|done].
    apply NoDup_app. split; [done|]. split; [|apply NoDup_singleton].
    intros x Hx Hk'%list_elem_of_singleton. subst x.
    apply (Hsep k Hx). simpl. left.
  - intros x Hx Hin. rewrite Hstep in Hx.
    destruct (keep d k).
    + apply elem_of_app in Hx as [Hx|Hx%list_elem_of_singleton];
        [|by subst x].
      apply (Hsep x Hx). simpl. by right.
    + apply (Hsep x Hx). simpl. by right.
Qed.

Lemma reduce_push_NoDup {A : Type} (keep : A → string → bool)
    (step : list string → A → string → list string) (m : gmap string A) :
  (∀ acc d k, step acc d k = if keep d k then acc ++ [k] else acc) →
  NoDup (reduce m step []).
Proof.
  intros Hstep. unfold reduce.
  apply (foldl_push_NoDup keep step); [done| |constructor|].
  - apply NoDup_fst_map_to_list.
  - by intros k ?%elem_of_nil.
Qed.

(** X4. For any user the id lists of "Updates Available" and "No
    Updates" have no duplicates and no id in common, and together they
    hold exactly the installed ids that the catalog knows: an installed
    application that is missing from the catalog is in neither. *)
Theorem update_lists_partition (e : env) (u : user) :
  NoDup (updatesAvailable_ids e u) ∧
  NoDup (noUpdates_ids e u) ∧
  (∀ k, k ∈ updatesAvailable_ids e u → k ∉ noUpdates_ids e u) ∧
  (∀ k, k ∈ updatesAvailable_ids e u ∨ k ∈ noUpdates_ids e u ↔
        k ∈ dom (installedApps u) ∧ is_Some (Apps_findOne_id e k)).
Proof.
  split.
  { apply (reduce_push_NoDup (λ d appId,
      match Apps_findOne_id e appId with
      | Some current =>
          dateTime (version d) <? dateTime (latestVersion current)
      | None => false
      end)).
    intros acc d k. by destruct (Apps_findOne_id e k). }
  split.
  { apply (reduce_push_NoDup (λ d appId,
      match Apps_findOne_id e appId with
      | Some current =>
          dateTime (version d) >=? dateTime (latestVersion current)
      | None => false
      end)).
    intros acc d k. by destruct (Apps_findOne_id e k). }
  split.
  - intros k. rewrite updatesAvailable_ids_elem, noUpdates_ids_elem.
    intros (d & cur & Hd & Hcur & Hlt) (d' & cur' & Hd' & Hcur' & Hge).
    simplify_eq. lia.
  - intros k. rewrite updatesAvailable_ids_elem, noUpdates_ids_elem, elem_of_dom.
    split.
    + intros [(d & cur & Hd & Hcur & _)|(d & cur & Hd & Hcur & _)];
        (split; [by exists d|by exists cur]).
    + intros [[d Hd] [cur Hcur]].
      destruct (Z.lt_ge_cases (dateTime (version d))
                  (dateTime (latestVersion cur))).
      * left. by exists d, cur.
      * right. exists d, cur. split; [done|]. split; [done|]. lia.
Qed.

(** X5. With a resolved user, "Updates Available" finds exactly the
    applications of the catalog whose id is installed with a timestamp
    older than the latest version of the catalog entity of that id, and
    "No Updates" those installed with a timestamp that is not older; in
    both cases among the applications that satisfy the other conditions
    of the supplied selector. *)
Theorem update_genres_result (e : env) (this : context) (u : user)
    (selector options : jsarg) (s : store) (a : app) :
  Categories_findOne e "Updates Available" = None →
  Categories_findOne e "No Updates" = None →
  getUser e this None = Some u →
  arg_ok s selector → arg_ok s options →
  (a ∈ fetch (Genres.findIn e "Updates Available" selector options this s).1 ↔
     a ∈ Apps e ∧
     (∃ d current, installedApps u !! app_id a = Some d ∧
        Apps_findOne_id e (app_id a) = Some current ∧
        dateTime (version d) < dateTime (latestVersion current)) ∧
     doc_matches (delete "_id" (supplied s selector)) a = true) ∧
  (a ∈ fetch (Genres.findIn e "No Updates" selector options this s).1 ↔
     a ∈ Apps e ∧
     (∃ d current, installedApps u !! app_id a = Some d ∧
        Apps_findOne_id e (app_id a) = Some current ∧
        dateTime (version d) >= dateTime (latestVersion current)) ∧
     doc_matches (delete "_id" (supplied s selector)) a = true).
Proof.
  intros Hc1 Hc2 Hu Hsel Hopt. split.
  - rewrite (findIn_extra_elem e
               {| eg_name := "Updates Available";
                  eg_selector := Computed UpdatesAvailable_selector;
                  eg_options := Absent;
                  eg_priority := 0; eg_showSummary := false |}
               (Some (id_in (VStr <$> updatesAvailable_ids e u)))); try done.
    + by rewrite id_in_selects, updatesAvailable_ids_elem.
    + in_extraGenres.
    + simpl. unfold UpdatesAvailable_selector. by rewrite Hu.
  - rewrite (findIn_extra_elem e
               {| eg_name := "No Updates";
                  eg_selector := Computed NoUpdates_selector;
                  eg_options := Absent;
                  eg_priority := 0; eg_showSummary := false |}
               (Some (id_in (VStr <$> noUpdates_ids e u)))); try done.
    + by rewrite id_in_selects, noUpdates_ids_elem.
    + in_extraGenres.
    + simpl. unfold NoUpdates_selector. by rewrite Hu.
Qed.

Lemma update_genres_result_witness :
  (Demo.chess ∈ fetch (Genres.findIn Demo.server "Updates Available"
                         Undefined Undefined Demo.asAlice []).1 ↔
     Demo.chess ∈ Apps Demo.server ∧
     (∃ d current, installedApps Demo.alice !! app_id Demo.chess = Some d ∧
        Apps_findOne_id Demo.server (app_id Demo.chess) = Some current ∧
        dateTime (version d) < dateTime (latestVersion current)) ∧
     doc_matches (delete "_id" (supplied [] Undefined)) Demo.chess = true) ∧
  (Demo.chess ∈ fetch (Genres.findIn Demo.server "No Updates"
                         Undefined Undefined Demo.asAlice []).1 ↔
     Demo.chess ∈ Apps Demo.server ∧
     (∃ d current, installedApps Demo.alice !! app_id Demo.chess = Some d ∧
        Apps_findOne_id Demo.server (app_id Demo.chess) = Some current ∧
        dateTime (version d) >= dateTime (latestVersion current)) ∧
     doc_matches (delete "_id" (supplied [] Undefined)) Demo.chess = true).
Proof.
  apply (update_genres_result Demo.server Demo.asAlice Demo.alice
           Undefined Undefined [] Demo.chess);
    [reflexivity | reflexivity | reflexivity | exact I | exact I].
Defined.

(** *** "Installed" and "Apps By Author" *)

Lemma Installed_selector_list (e : env) (this : context) (local : list string) :
  (hasWindow e = true → sandstormInstalledApps e = VArr (VStr <$> local)) →
  Installed_selector e this None =
    Some (id_in (VStr <$>
      ((if hasWindow e then local else []) ++
       match getUser e this None with
       | Some u => keys (installedApps u)
       | None => []
       end))).
Proof.
  intros Hlocal. unfold Installed_selector.
  destruct (hasWindow e).
  - rewrite (Hlocal eq_refl). simpl.
    destruct (getUser e this None); simpl.
    + by rewrite fmap_app.
    + by rewrite (right_id_L [] (++)).
  - simpl. by destruct (getUser e this None).
Qed.

(** X6. "Installed" finds exactly the applications of the catalog whose
    id is persisted in the browser (when there is a window) or is a key
    of the resolved user's [installedApps], among those that satisfy the
    other conditions of the supplied selector. *)
Theorem Installed_result (e : env) (this : context) (local : list string)
    (selector options : jsarg) (s : store) (a : app) :
  (hasWindow e = true → sandstormInstalledApps e = VArr (VStr <$> local)) →
  Categories_findOne e "Installed" = None →
  arg_ok s selector → arg_ok s options →
  a ∈ fetch (Genres.findIn e "Installed" selector options this s).1 ↔
    a ∈ Apps e ∧
    ((hasWindow e = true ∧ app_id a ∈ local) ∨
     (∃ u, getUser e this None = Some u ∧ app_id a ∈ dom (installedApps u))) ∧
    doc_matches (delete "_id" (supplied s selector)) a = true.
Proof.
  intros Hlocal Hc Hsel Hopt.
  rewrite (findIn_extra_elem e
             {| eg_name := "Installed";
                eg_selector := Computed Installed_selector;
                eg_options := Static ∅;
                eg_priority := 2; eg_showSummary := false |}
             (Installed_selector e this None)); try done; [|in_extraGenres].
  rewrite (Installed_selector_list e this local Hlocal), id_in_selects.
  rewrite elem_of_app.
  assert ((app_id a ∈ (if hasWindow e then local else []) ∨
           app_id a ∈ match getUser e this None with
                      | Some u => keys (installedApps u)
                      | None => []
                      end) ↔
          ((hasWindow e = true ∧ app_id a ∈ local) ∨
           (∃ u, getUser e this None = Some u ∧
                 app_id a ∈ dom (installedApps u)))) as Hiff; [|tauto].
  destruct (hasWindow e), (getUser e this None) as [u|];
    rewrite ?elem_of_keys; split.
  - intros [?|?]; [by left|right; by exists u].
  - intros [[_ ?]|(u' & [= <-] & ?)]; [by left|by right].
  - intros [?|?%elem_of_nil]; [by left|done].
  - intros [[_ ?]|(u' & [=] & _)]. by left.
  - intros [?%elem_of_nil|?]; [done|right; by exists u].
  - intros [[[=] _]|(u' & [= <-] & ?)]. by right.
  - by intros [?%elem_of_nil|?%elem_of_nil].
  - by intros [[[=] _]|(u' & [=] & _)].
Qed.

Lemma Installed_result_witness :
  Demo.notes ∈ fetch (Genres.findIn Demo.browser "Installed" Undefined Undefined
                        noContext []).1 ↔
    Demo.notes ∈ Apps Demo.browser ∧
    ((hasWindow Demo.browser = true ∧ app_id Demo.notes ∈ ["a2"]) ∨
     (∃ u, getUser Demo.browser noContext None = Some u ∧
           app_id Demo.notes ∈ dom (installedApps u))) ∧
    doc_matches (delete "_id" (supplied [] Undefined)) Demo.notes = true.
Proof.
  apply (Installed_result Demo.browser noContext ["a2"] Undefined Undefined []
           Demo.notes); [intros _; reflexivity | reflexivity | exact I | exact I].
Defined.

(** X7. "Apps By Author" never answers [null]. The author is
    [this.authorId] when the context has one, and the route parameter
    otherwise; the cursor holds exactly the applications of that author
    that satisfy the other conditions of the supplied selector. *)
Theorem AppsByAuthor_result (e : env) (this : context) (who : string)
    (selector options : jsarg) (s : store) (a : app) :
  (this_authorId this = Some who ∧ who ≠ "") ∨
  (falsy (this_authorId this) ∧ routeAuthorId e = Some who) →
  Categories_findOne e "Apps By Author" = None →
  arg_ok s selector → arg_ok s options →
  (∀ e' this' uid, AppsByAuthor_selector e' this' uid ≠ None) ∧
  (a ∈ fetch (Genres.findIn e "Apps By Author" selector options this s).1 ↔
     a ∈ Apps e ∧ author a = who ∧
     doc_matches (delete "author" (supplied s selector)) a = true).
Proof.
  intros Hwho Hc Hsel Hopt. split; [done|].
  assert (js_or (this_authorId this) (routeAuthorId e) = Some who) as Hor.
  { destruct Hwho as [[-> Hne]|[[->| ->] ->]]; simpl; try done.
    apply String.eqb_neq in Hne. by rewrite Hne. }
  rewrite (findIn_extra_elem e
             {| eg_name := "Apps By Author";
                eg_selector := Computed AppsByAuthor_selector;
                eg_options := Absent;
                eg_priority := 0; eg_showSummary := false |}
             (Some {[ "author" := VStr who ]})); try done.
  - rewrite elem_of_run_query. simpl.
    rewrite <- insert_union_singleton_l, doc_matches_insert.
    change (app_field a "author") with (VStr (author a)). simpl.
    rewrite String.eqb_eq. split; intros (? & ? & ?); done.
  - in_extraGenres.
  - simpl. unfold AppsByAuthor_selector. by rewrite Hor.
Qed.

Lemma AppsByAuthor_result_witness :
  (∀ e' this' uid, AppsByAuthor_selector e' this' uid ≠ None) ∧
  (Demo.notes ∈ fetch (Genres.findIn Demo.server "Apps By Author"
                         Undefined Undefined
                         {| this_userId := None; this_authorId := Some "u2" |}
                         []).1 ↔
     Demo.notes ∈ Apps Demo.server ∧ author Demo.notes = "u2" ∧
     doc_matches (delete "author" (supplied [] Undefined)) Demo.notes = true).
Proof.
  apply (AppsByAuthor_result Demo.server
           {| this_userId := None; this_authorId := Some "u2" |} "u2"
           Undefined Undefined [] Demo.notes).
  - left. split; [reflexivity|discriminate].
  - reflexivity.
  - exact I.
  - exact I.
Defined.

(** ** [getUser] *)

Lemma js_or_Some (a b : option string) (x : string) :
  js_or a b = Some x →
  (a = Some x ∧ x ≠ "") ∨ (falsy a ∧ b = Some x).
Proof.
  unfold js_or, falsy. destruct a as [y|]; [|by right; split; [left|]].
  destruct (String.eqb_spec y "") as [->|Hne].
  - intros ->. right. split; [by right|done].
  - intros [= ->]. by left.
Qed.

Lemma js_or_None (a b : option string) :
  js_or a b = None → falsy a ∧ b = None.
Proof.
  unfold js_or, falsy. destruct a as [y|]; [|by split; [left|]].
  destruct (String.eqb_spec y "") as [->|Hne]; [|done].
  intros ->. split; [by right|done].
Qed.

(** X8. A user that [getUser] returns is a document of [Meteor.users]
    with a non-empty id, and that id is the [userId] argument, or, when
    the argument is falsy, [this.userId], or, when both are falsy and the
    code runs on a client, [Meteor.userId()]. On a server the session
    user is never looked up. *)
Theorem getUser_resolution (e : env) (this : context) (uid : option string)
    (u : user) :
  getUser e this uid = Some u →
  u ∈ users e ∧ user_id u ≠ "" ∧
  (uid = Some (user_id u) ∨
   (falsy uid ∧ this_userId this = Some (user_id u)) ∨
   (falsy uid ∧ falsy (this_userId this) ∧ isClient e = true ∧
    currentUserId e = Some (user_id u))).
Proof.
  unfold getUser, users_findOne. intros Hget.
  destruct (if isClient e
            then js_or (js_or uid (this_userId this)) (currentUserId e)
            else js_or uid (this_userId this)) as [i|] eqn:Hid; [|done].
  destruct (String.eqb_spec i "") as [->|Hne]; [done|].
  apply find_name_Some in Hget as [Hin <-].
  split; [done|]. split; [done|].
  destruct (isClient e).
  - apply js_or_Some in Hid as [[Hid _]|[Hf Hcur]].
    + apply js_or_Some in Hid as [[-> _]|[Hf ->]]; [by left|right; by left].
    + destruct Hf as [Hf|Hf].
      * apply js_or_None in Hf as [Hf1 Hf2]. right. right.
        split; [done|]. split; [by left|done].
      * apply js_or_Some in Hf as [[_ Hn]|[Hf1 Hf2]]; [done|].
        right. right. split; [done|]. split; [by right|done].
  - apply js_or_Some in Hid as [[-> _]|[Hf ->]]; [by left|right; by left].
Qed.

Lemma getUser_resolution_witness :
  Demo.alice ∈ users Demo.browser ∧ user_id Demo.alice ≠ "" ∧
  (None = Some (user_id Demo.alice) ∨
   (falsy None ∧ this_userId noContext = Some (user_id Demo.alice)) ∨
   (falsy None ∧ falsy (this_userId noContext) ∧ isClient Demo.browser = true ∧
    currentUserId Demo.browser = Some (user_id Demo.alice))).
Proof.
  apply (getUser_resolution Demo.browser noContext None Demo.alice).
  reflexivity.
Defined.

(** ** [findIn] and [findOneIn] together, and the store *)

(** In the category branch [find] receives the options as they were
    passed and [findOne] the defaulted ones; the store reads the same sort
    specifier from both, also when the fresh object is the one that
    receives the category. *)
Lemma category_options_sort (c : category) (options : jsarg) (l : nat)
    (s1 : store) :
  let '(lo, s2) := or_empty options s1 in
  (alter (set_categories c) l s2 !! lo) ≫= (.!! "sort") =
    deref (alter (set_categories c) l s2) options ≫= (.!! "sort").
Proof.
  assert ((alter (set_categories c) l (s1 ++ [∅]) !! length s1)
            ≫= (.!! "sort") = (None : option value)) as Hfresh.
  { destruct (decide (l = length s1)) as [->|Hne].
    - rewrite list_lookup_alter, list_lookup_middle by done.
      rewrite decide_True by done.
      cbn [fmap option_fmap option_map mbind option_bind].
      by rewrite set_categories_insert, lookup_insert_ne.
    - rewrite list_lookup_alter_ne, list_lookup_middle by done. done. }
  destruct options as [| |i]; simpl; [exact Hfresh..|done].
Qed.

Lemma findOneIn_findIn (e : env) (name : string)
    (selector options : jsarg) (context : context) (s : store) :
  (Genres.findOneIn e name selector options context s).1 =
    head (fetch (Genres.findIn e name selector options context s).1) ∧
  (Genres.findOneIn e name selector options context s).2 =
    (Genres.findIn e name selector options context s).2.
Proof.
  destruct (Categories_findOne e name) as [c|] eqn:Hc.
  - rewrite (findIn_category _ _ _ _ _ _ c), (findOneIn_category _ _ _ _ _ _ c)
      by done.
    destruct (or_empty selector s) as [l s1].
    pose proof (category_options_sort c options l s1) as Hsort.
    destruct (or_empty options s1) as [lo s2].
    cbn [fst snd fetch]. split; [|done]. f_equal.
    by apply sort_docs_ext.
  - unfold Genres.findOneIn, Genres.findIn. rewrite Hc.
    destruct (findWhere_name extraGenres name) as [g|];
      unfold mbind, St_bind;
      destruct (or_empty selector s) as [l s1];
      destruct (or_empty options s1) as [lo s2]; simpl; [|done].
    destruct (invokeGenreFunctions e g l lo context s2) as [p s3]. done.
Qed.

(** X9. Whatever the name and the arguments, [findOneIn] returns the
    first document of the cursor that [findIn] returns for the same
    arguments, and both leave the same store; [findOneIn] finds nothing
    exactly when that cursor is empty. *)
Theorem findOneIn_agrees_with_findIn (e : env) (name : string)
    (selector options : jsarg) (context : context) (s : store) :
  (Genres.findOneIn e name selector options context s).1 =
    head (fetch (Genres.findIn e name selector options context s).1) ∧
  (Genres.findOneIn e name selector options context s).2 =
    (Genres.findIn e name selector options context s).2 ∧
  ((Genres.findOneIn e name selector options context s).1 = None ↔
   fetch (Genres.findIn e name selector options context s).1 = []).
Proof.
  destruct (findOneIn_findIn e name selector options context s) as [H1 H2].
  split; [done|]. split; [done|]. rewrite H1.
  by destruct (fetch _).
Qed.

(** X10. [findIn] and [findOneIn] never remove an object from the store
    and change no object but the selector; when no category has the
    name they change no object at all. *)
Theorem findIn_frame (e : env) (name : string) (selector options : jsarg)
    (context : context) (s : store) :
  arg_ok s selector → arg_ok s options →
  let s' := (Genres.findIn e name selector options context s).2 in
  (length s ≤ length s')%nat ∧
  (∀ i o, s !! i = Some o → selector ≠ Ref i → s' !! i = Some o) ∧
  (Categories_findOne e name = None →
   ∀ i o, s !! i = Some o → s' !! i = Some o) ∧
  (Genres.findOneIn e name selector options context s).2 = s'.
Proof.
  intros Hsel Hopt s'.
  assert (∀ s1 : store, (∀ i o, s !! i = Some o → s1 !! i = Some o) →
            (length s ≤ length s1)%nat) as Hlen.
  { intros s1 Hkeep.
    destruct (decide (length s ≤ length s1)%nat) as [|Hn]; [done|].
    exfalso. destruct (lookup_lt_is_Some_2 s (length s1)) as [o Ho]; [lia|].
    apply Hkeep, lookup_lt_Some in Ho. lia. }
  assert ((∀ i o, s !! i = Some o → selector ≠ Ref i → s' !! i = Some o) ∧
          (Categories_findOne e name = None →
             ∀ i o, s !! i = Some o → s' !! i = Some o)) as [Hframe Hnone].
  { unfold s'. destruct (Categories_findOne e name) as [c|] eqn:Hc.
    - split; [|done].
      destruct (category_branch_store s selector options c Hsel Hopt)
        as (l & s1 & lo & s2 & E1 & E2 & _ & _ & Hother).
      rewrite (findIn_category _ _ _ _ _ _ c) by done. rewrite E1, E2. simpl.
      intros i o Hi Hne. by apply Hother.
    - destruct (findWhere_name extraGenres name) as [g|] eqn:Hg.
      + destruct (extra_branch e name selector options context s g Hc Hg
                    Hsel Hopt) as (ls & lo & s1 & Hfind & _ & _ & _ & Hkeep & _).
        cbv zeta in Hfind. rewrite Hfind. simpl.
        split; [|by intros _]. intros i o Hi _. by apply Hkeep.
      + unfold Genres.findIn. rewrite Hc, Hg.
        destruct (or_empty_spec s selector Hsel)
          as (l & s1 & E1 & _ & Hkeep1 & _ & _).
        assert (arg_ok s1 options) as Hopt1.
        { destruct options as [| |i]; simpl in *; try done.
          destruct Hopt as [o Ho]. exists o. by apply Hkeep1. }
        destruct (or_empty_spec s1 options Hopt1)
          as (lo & s2 & E2 & _ & Hkeep2 & _ & _).
        unfold mbind, St_bind. rewrite E1, E2. simpl.
        split; [|intros _]; intros i o Hi; intros; by apply Hkeep2, Hkeep1. }
  split.
  { unfold s' in *. destruct (Categories_findOne e name) as [c|] eqn:Hc.
    - destruct (category_branch_store s selector options c Hsel Hopt)
        as (l & s1 & lo & s2 & E1 & E2 & _ & _ & _).
      rewrite (findIn_category _ _ _ _ _ _ c) by done. rewrite E1, E2. simpl.
      rewrite length_alter.
      destruct (or_empty_spec s selector Hsel)
        as (l' & s1' & E1' & _ & Hkeep1 & _ & _).
      rewrite E1 in E1'. injection E1' as <- <-.
      assert (arg_ok s1 options) as Hopt1.
      { destruct options as [| |i]; simpl in *; try done.
        destruct Hopt as [o Ho]. exists o. by apply Hkeep1. }
      destruct (or_empty_spec s1 options Hopt1)
        as (lo' & s2' & E2' & _ & Hkeep2 & _ & _).
      rewrite E2 in E2'. injection E2' as <- <-.
      apply Hlen. intros i o Hi. by apply Hkeep2, Hkeep1.
    - apply Hlen. by apply Hnone. }
  split; [done|]. split; [done|].
  apply findOneIn_findIn.
Qed.

Lemma findIn_frame_witness :
  let s' := (Genres.findIn Demo.server "Games" (Ref 0%nat) (Ref 1%nat)
               noContext Demo.callerStore).2 in
  (length Demo.callerStore ≤ length s')%nat ∧
  (∀ i o, Demo.callerStore !! i = Some o → Ref 0%nat ≠ Ref i →
          s' !! i = Some o) ∧
  (Categories_findOne Demo.server "Games" = None →
   ∀ i o, Demo.callerStore !! i = Some o → s' !! i = Some o) ∧
  (Genres.findOneIn Demo.server "Games" (Ref 0%nat) (Ref 1%nat) noContext
     Demo.callerStore).2 = s'.
Proof.
  apply (findIn_frame Demo.server "Games" (Ref 0%nat) (Ref 1%nat) noContext
           Demo.callerStore).
  - simpl. eexists. reflexivity.
  - simpl. eexists. reflexivity.
Defined.

(** ** A selector object used for several calls *)

Lemma category_call_store (e : env) (c : category) (l : nat) (F : obj)
    (options : jsarg) (context : context) (s : store) :
  c ∈ Categories e → s !! l = Some F → arg_ok s options →
  let s1 := (Genres.findIn e (cat_name c) (Ref l) options context s).2 in
  s1 !! l = Some (<["categories" := VStr (cat_name c)]> F) ∧
  (∀ i o, i ≠ l → s !! i = Some o → s1 !! i = Some o) ∧
  arg_ok s1 options.
Proof.
  intros Hin Hl Hopt s1.
  assert (arg_ok s (Ref l)) as Hsel by (by exists F).
  destruct (find_name_elem cat_name (Categories e) c Hin) as (c' & Hfind & Hname).
  fold (Categories_findOne e (cat_name c)) in Hfind.
  destruct (category_branch_store s (Ref l) options c' Hsel Hopt)
    as (l' & s2 & lo & s3 & E1 & E2 & Hl' & Hsame & Hother).
  specialize (Hsame l eq_refl) as ->.
  unfold supplied in Hl'. simpl in Hl'. rewrite Hl, Hname in Hl'. simpl in Hl'.
  assert (s1 = alter (set_categories c') l s3) as ->.
  { unfold s1. rewrite (findIn_category _ _ _ _ _ _ c') by done.
    by rewrite E1, E2. }
  split; [done|].
  assert (∀ i o, i ≠ l → s !! i = Some o →
            alter (set_categories c') l s3 !! i = Some o) as Hkeep.
  { intros i o Hne Hi. apply Hother; [|done]. by intros [= ->]. }
  split; [done|].
  destruct options as [| |i]; simpl in *; try done.
  destruct (decide (i = l)) as [->|Hne]; [by eexists|].
  destruct Hopt as [o Ho]. exists o. by apply Hkeep.
Qed.

(** No extra genre has a [categories] condition of its own. *)
Lemma genre_selector_no_categories (e : env) (g : extraGenre)
    (context : context) (G : obj) :
  g ∈ extraGenres → invoke (eg_selector g) e context = Some G →
  G !! "categories" = None.
Proof.
  intros Hin HG. apply list_elem_of_In in Hin. simpl in Hin.
  repeat (destruct Hin as [<-|Hin];
    [simpl in HG;
     unfold Installed_selector, UpdatesAvailable_selector, NoUpdates_selector,
       AppsByMe_selector, AppsByAuthor_selector, id_in in HG;
     repeat case_match; simplify_eq; reflexivity|]).
  destruct Hin.
Qed.

(** X11. A selector object that went through a category call keeps the
    category: a later extra-genre call with the same object asks the
    store for the selector with [categories] set, merged with the
    genre's, under the genre's options merged over the caller's, and
    every application it finds carries that category. *)
Theorem selector_reuse_carries_category (e : env) (c : category)
    (g : extraGenre) (l : nat) (F : obj) (options : jsarg)
    (context : context) (s : store) :
  c ∈ Categories e →
  g ∈ extraGenres →
  Categories_findOne e (eg_name g) = None →
  s !! l = Some F → arg_ok s options →
  let s1 := (Genres.findIn e (cat_name c) (Ref l) options context s).2 in
  let later := fetch (Genres.findIn e (eg_name g) (Ref l) options context s1).1 in
  later = find_docs e
            (Some (extend_obj (<["categories" := VStr (cat_name c)]> F)
                     (invoke (eg_selector g) e context)))
            (Some (extend_obj (supplied s1 options)
                     (invoke (eg_options g) e context))) ∧
  (∀ a, a ∈ later → cat_name c ∈ categories a).
Proof.
  intros Hc Hg Hnone Hl Hopt s1 later.
  destruct (category_call_store e c l F options context s Hc Hl Hopt)
    as (Hl1 & _ & Hopt1). fold s1 in Hl1, Hopt1.
  assert (later = find_docs e
            (Some (extend_obj (<["categories" := VStr (cat_name c)]> F)
                     (invoke (eg_selector g) e context)))
            (Some (extend_obj (supplied s1 options)
                     (invoke (eg_options g) e context)))) as Hlater.
  { unfold later.
    rewrite (findIn_extra_fetch e g (invoke (eg_selector g) e context));
      try done; [|by eexists].
    unfold supplied at 1. simpl. by rewrite Hl1. }
  split; [done|]. intros a. rewrite Hlater, find_docs_perm, elem_of_run_query.
  intros [_ Hm]. rewrite doc_matches_spec in Hm.
  specialize (Hm "categories" (VStr (cat_name c))).
  change (app_field a "categories") with (VArr (VStr <$> categories a)) in Hm.
  simpl in Hm. apply existsb_prim_eqb_str, Hm.
  destruct (invoke (eg_selector g) e context) as [G|] eqn:HG.
  - rewrite extend_obj_lookup.
    rewrite (genre_selector_no_categories e g context G Hg HG).
    by rewrite lookup_insert_eq.
  - simpl. by rewrite lookup_insert_eq.
Qed.

Lemma selector_reuse_carries_category_witness :
  let s1 := (Genres.findIn Demo.server "Games" (Ref 0%nat) (Ref 1%nat)
               noContext Demo.callerStore).2 in
  let later := fetch (Genres.findIn Demo.server "Popular" (Ref 0%nat)
                        (Ref 1%nat) noContext s1).1 in
  later = find_docs Demo.server
            (Some (extend_obj
                     (<["categories" := VStr "Games"]>
                        {[ "categories" := VStr "Office"; "approved" := VNum 1 ]})
                     (invoke (Static ∅) Demo.server noContext)))
            (Some (extend_obj (supplied s1 (Ref 1%nat))
                     (invoke (Static (sort_desc "installCount")) Demo.server
                        noContext))) ∧
  (∀ a, a ∈ later → "Games" ∈ categories a).
Proof.
  apply (selector_reuse_carries_category Demo.server Demo.games
           {| eg_name := "Popular"; eg_selector := Static ∅;
              eg_options := Static (sort_desc "installCount");
              eg_priority := 0; eg_showSummary := true |}
           0%nat {[ "categories" := VStr "Office"; "approved" := VNum 1 ]}
           (Ref 1%nat) noContext Demo.callerStore).
  - apply list_elem_of_here.
  - in_extraGenres.
  - reflexivity.
  - reflexivity.
  - simpl. eexists. reflexivity.
Defined.

(** "Popular" asked with a fresh selector lists both applications, the
    most installed first; asked with the object of an earlier "Games"
    call it lists chess only. *)
Example Popular_after_Games :
  app_id <$> fetch (Genres.findIn Demo.server "Popular" (Ref 0%nat) Undefined
                      noContext [ {[ "approved" := VNum 1 ]} ]).1
    = ["a2"; "a1"] ∧
  app_id <$> fetch (Genres.findIn Demo.server "Popular" (Ref 0%nat) Undefined
                      noContext
                      (Genres.findIn Demo.server "Games" (Ref 0%nat) Undefined
                         noContext [ {[ "approved" := VNum 1 ]} ]).2).1
    = ["a1"].
Proof. split; vm_compute; reflexivity. Qed.

(** X12. A category call overwrites what an earlier category call left
    in the selector object: the second call finds what it would have
    found on the untouched selector. *)
Theorem category_calls_do_not_accumulate (e : env) (c1 c2 : category)
    (l : nat) (F : obj) (options : jsarg) (context : context) (s : store) :
  c1 ∈ Categories e → c2 ∈ Categories e →
  s !! l = Some F → arg_ok s options →
  let s1 := (Genres.findIn e (cat_name c1) (Ref l) options context s).2 in
  fetch (Genres.findIn e (cat_name c2) (Ref l) options context s1).1 =
    fetch (Genres.findIn e (cat_name c2) (Ref l) options context s).1 ∧
  (Genres.findIn e (cat_name c2) (Ref l) options context s1).2 !! l =
    Some (<["categories" := VStr (cat_name c2)]> F).
Proof.
  intros Hc1 Hc2 Hl Hopt s1.
  destruct (category_call_store e c1 l F options context s Hc1 Hl Hopt)
    as (Hl1 & Hkeep1 & Hopt1). fold s1 in Hl1, Hkeep1, Hopt1.
  destruct (category_call_store e c2 l _ options context s1 Hc2 Hl1 Hopt1)
    as (Hl2 & _ & _).
  rewrite insert_insert_eq in Hl2. split; [|done].
  assert (∀ (s0 : store) (F0 : obj), s0 !! l = Some F0 → arg_ok s0 options →
            fetch (Genres.findIn e (cat_name c2) (Ref l) options context s0).1 =
              find_docs e (Some (<["categories" := VStr (cat_name c2)]> F0))
                (deref (<[l := <["categories" := VStr (cat_name c2)]> F0]> s0)
                   options))
    as Hfetch.
  { intros s0 F0 Hl0 Hopt0.
    destruct (find_name_elem cat_name (Categories e) c2 Hc2)
      as (c' & Hfind & Hname).
    fold (Categories_findOne e (cat_name c2)) in Hfind.
    rewrite (findIn_category _ _ _ _ _ _ c') by done.
    cbn [or_empty]. unfold mret, St_ret.
    assert (∃ s2, (or_empty options s0).2 = s2 ∧ s2 !! l = Some F0 ∧
                  deref (alter (set_categories c') l s2) options =
                    deref (<[l := <["categories" := VStr (cat_name c2)]> F0]> s0)
                      options) as (s2 & E2 & Hl2' & Hd).
    { destruct options as [| |i]; simpl.
      - eexists; split; [done|]. split; [by apply lookup_app_l_Some|done].
      - eexists; split; [done|]. split; [by apply lookup_app_l_Some|done].
      - eexists; split; [done|]. split; [done|].
        destruct (decide (l = i)) as [->|Hne].
        + rewrite list_lookup_alter, decide_True, Hl0 by done.
          rewrite list_lookup_insert_eq by (by eapply lookup_lt_Some).
          simpl. by rewrite set_categories_insert, Hname.
        + by rewrite list_lookup_alter_ne, list_lookup_insert_ne by done. }
    destruct (or_empty options s0) as [lo s2']. simpl in E2. subst s2'.
    cbn [fst fetch]. rewrite Hd.
    rewrite list_lookup_alter, decide_True, Hl2' by done. simpl.
    by rewrite set_categories_insert, Hname. }
  rewrite (Hfetch s1 _ Hl1 Hopt1), (Hfetch s F Hl Hopt).
  rewrite insert_insert_eq. f_equal.
  destruct options as [| |i]; simpl; [done..|].
  destruct (decide (l = i)) as [->|Hne].
  - rewrite !list_lookup_insert_eq; [done| |].
    + by eapply lookup_lt_Some.
    + by eapply lookup_lt_Some.
  - rewrite !list_lookup_insert_ne by done.
    symmetry. destruct (s !! i) as [o|] eqn:Hi.
    + symmetry. apply Hkeep1; [congruence|done].
    + destruct Hopt as [o Ho]. simpl in Ho. by rewrite Hi in Ho.
Qed.

Lemma category_calls_do_not_accumulate_witness :
  let s1 := (Genres.findIn Demo.server "Games" (Ref 0%nat) (Ref 1%nat)
               noContext Demo.callerStore).2 in
  fetch (Genres.findIn Demo.server "Games" (Ref 0%nat) (Ref 1%nat)
           noContext s1).1 =
    fetch (Genres.findIn Demo.server "Games" (Ref 0%nat) (Ref 1%nat)
             noContext Demo.callerStore).1 ∧
  (Genres.findIn Demo.server "Games" (Ref 0%nat) (Ref 1%nat) noContext s1).2
    !! 0%nat =
    Some (<["categories" := VStr "Games"]>
            {[ "categories" := VStr "Office"; "approved" := VNum 1 ]}).
Proof.
  apply (category_calls_do_not_accumulate Demo.server Demo.games Demo.games
           0%nat {[ "categories" := VStr "Office"; "approved" := VNum 1 ]}
           (Ref 1%nat) noContext Demo.callerStore).
  - apply list_elem_of_here.
  - apply list_elem_of_here.
  - reflexivity.
  - simpl. eexists. reflexivity.
Defined.

(** X13. [invokeGenreFunctions] leaves every object of the store as it
    is and appends exactly two: the merge of the original selector with
    the genre's, then the merge of the original options with the
    genre's; it returns these two. *)
Theorem invokeGenreFunctions_allocates (e : env) (g : extraGenre) (l lo : nat)
    (context : context) (s : store) (F O : obj) :
  s !! l = Some F → s !! lo = Some O →
  invokeGenreFunctions e g l lo context s =
    ({| params_selector := length s; params_options := S (length s) |},
     s ++ [extend_obj F (invoke (eg_selector g) e context);
           extend_obj O (invoke (eg_options g) e context)]).
Proof.
  intros Hl Hlo. unfold invokeGenreFunctions. st_unfold.
  rewrite (lookup_app_l_Some _ _ _ _ Hl). simpl.
  rewrite alter_app_r_alt, Nat.sub_diag by done. simpl.
  rewrite (right_id_L ∅ (∪)).
  set (S1 := extend_obj F (invoke (eg_selector g) e context)).
  assert (length (s ++ [S1]) = S (length s)) as Hlen.
  { rewrite length_app. simpl. lia. }
  assert (((s ++ [S1]) ++ [∅]) !! lo = Some O) as Hlo'.
  { by do 2 apply lookup_app_l_Some. }
  rewrite Hlo'. simpl.
  rewrite alter_app_r_alt, Nat.sub_diag by done. simpl.
  rewrite (right_id_L ∅ (∪)), Hlen.
  by rewrite <- (assoc_L (++)).
Qed.

Lemma invokeGenreFunctions_allocates_witness :
  invokeGenreFunctions Demo.server
    {| eg_name := "Popular"; eg_selector := Static ∅;
       eg_options := Static (sort_desc "installCount");
       eg_priority := 0; eg_showSummary := true |}
    0%nat 1%nat noContext Demo.callerStore =
    ({| params_selector := length Demo.callerStore;
        params_options := S (length Demo.callerStore) |},
     Demo.callerStore ++
       [extend_obj {[ "categories" := VStr "Office"; "approved" := VNum 1 ]}
          (invoke (Static ∅) Demo.server noContext);
        extend_obj {[ "sort" := VObj {[ "foo" := VNum 1 ]} ]}
          (invoke (Static (sort_desc "installCount")) Demo.server noContext)]).
Proof.
  apply (invokeGenreFunctions_allocates Demo.server
           {| eg_name := "Popular"; eg_selector := Static ∅;
              eg_options := Static (sort_desc "installCount");
              eg_priority := 0; eg_showSummary := true |}
           0%nat 1%nat noContext Demo.callerStore
           {[ "categories" := VStr "Office"; "approved" := VNum 1 ]}
           {[ "sort" := VObj {[ "foo" := VNum 1 ]} ]}); reflexivity.
Defined.

(** ** [getAll] and [getOne], further *)

(** *** [_.sortBy] is stable *)

Lemma insert_sorted_stable {A : Type} (c : option Z) (x : ranked A)
    (l : list (ranked A)) :
  (∀ y, y ∈ l → r_criteria y = r_criteria x → (r_index x < r_index y)%nat) →
  filter (λ r, r_criteria r = c) (insert_sorted sortBy_cmp x l) =
    filter (λ r, r_criteria r = c) (x :: l).
Proof.
  induction l as [|y l IH]; intros Hlt; simpl; [done|].
  destruct (sortBy_cmp x y <=? 0) eqn:Hcmp; [done|].
  apply Z.leb_gt in Hcmp.
  assert (r_criteria y ≠ r_criteria x) as Hne.
  { intros Heq. specialize (Hlt y (list_elem_of_here _ _) Heq).
    unfold sortBy_cmp in Hcmp. rewrite bool_decide_eq_true_2 in Hcmp by done.
    lia. }
  rewrite (filter_cons _ y), IH.
  - rewrite !filter_cons. repeat case_decide; simplify_eq; done.
  - intros z Hz. apply Hlt. by apply list_elem_of_further.
Qed.

Lemma array_sort_stable {A : Type} (c : option Z) (rs : list (ranked A)) :
  StronglySorted (λ x y, (r_index x < r_index y)%nat) rs →
  filter (λ r, r_criteria r = c) (array_sort sortBy_cmp rs) =
    filter (λ r, r_criteria r = c) rs.
Proof.
  induction 1 as [|x rs Hs IH Hall]; simpl; [done|].
  rewrite insert_sorted_stable.
  - by rewrite !filter_cons, IH.
  - intros y Hy _. rewrite array_sort_perm in Hy.
    rewrite List.Forall_forall in Hall. by apply Hall, list_elem_of_In.
Qed.

Lemma tagged_from_sorted {A : Type} (f : A → option Z) (k : nat) (l : list A) :
  StronglySorted (λ x y, (r_index x < r_index y)%nat)
    (imap (λ i v, Ranked v (k + i) (f v)) l) ∧
  Forall (λ r, (k ≤ r_index r)%nat) (imap (λ i v, Ranked v (k + i) (f v)) l).
Proof.
  revert k. induction l as [|x l IH]; intros k; simpl.
  { split; constructor. }
  assert (imap ((λ i v, Ranked v (k + i) (f v)) ∘ S) l =
          imap (λ i v, Ranked v (S k + i) (f v)) l) as ->.
  { apply imap_ext. intros i v _. simpl. f_equal. lia. }
  destruct (IH (S k)) as [Hs Hall]. split.
  - constructor; [done|]. apply List.Forall_forall. intros r Hr.
    rewrite List.Forall_forall in Hall. specialize (Hall r Hr). simpl. lia.
  - constructor; [simpl; lia|].
    eapply Forall_impl; [exact Hall|]. simpl. intros r ?. lia.
Qed.

Lemma filter_pluck {A : Type} (f : A → option Z) (c : option Z)
    (rs : list (ranked A)) :
  Forall (λ r, r_criteria r = f (r_value r)) rs →
  filter (λ v, f v = c) (r_value <$> rs) =
    r_value <$> filter (λ r, r_criteria r = c) rs.
Proof.
  induction 1 as [|r rs Hr Hrs IH]; [done|].
  rewrite fmap_cons, !filter_cons, IH, Hr. by case_decide.
Qed.

Lemma sortBy_stable {A : Type} (l : list A) (f : A → option Z) (c : option Z) :
  filter (λ v, f v = c) (sortBy l f) = filter (λ v, f v = c) l.
Proof.
  unfold sortBy. rewrite (filter_pluck f c).
  - rewrite array_sort_stable.
    + rewrite <- (filter_pluck f c) by apply tagged_criteria.
      by rewrite pluck_tagged.
    + apply (tagged_from_sorted f 0 l).
  - apply Forall_forall. intros r Hin. rewrite array_sort_perm in Hin.
    revert r Hin. apply Forall_forall, tagged_criteria.
Qed.

(** X14. The sort of [getAll] is stable: the descriptors that share a
    criteria value come out in the order they have without the
    [iteratee], extra genres in declaration order before categories in
    catalog order. *)
Theorem getAll_sort_is_stable (e : env)
    (w : option (list (string * value))) (p : option (genre → bool))
    (f : genre → option Z) (c : option Z) :
  filter (λ g, f g = c)
    (Genres.getAll e {| opt_where := w; opt_filter := p; opt_iteratee := Some f |})
  = filter (λ g, f g = c)
      (Genres.getAll e {| opt_where := w; opt_filter := p; opt_iteratee := None |}).
Proof. unfold Genres.getAll. simpl. apply sortBy_stable. Qed.

Lemma elem_of_where (l : list genre) (attrs : list (string * value)) (g : genre) :
  g ∈ where_ l attrs ↔
    g ∈ l ∧ attrs ≠ [] ∧
    ∀ k v, (k, v) ∈ attrs →
      ∃ v', genre_prop g k = Some v' ∧ strict_eqb v v' = true.
Proof.
  destruct attrs as [|kv attrs].
  { simpl. split; [by intros ?%elem_of_nil|by intros (_ & ? & _)]. }
  unfold where_.
  rewrite list_elem_of_In, filter_In, <- list_elem_of_In.
  rewrite forallb_forall. split.
  - intros [Hin Hall]. split; [done|]. split; [done|].
    intros k v Hkv. apply list_elem_of_In in Hkv.
    specialize (Hall _ Hkv). simpl in Hall.
    destruct (genre_prop g k) as [v'|]; [|done]. by exists v'.
  - intros (Hin & _ & Hall). split; [done|].
    intros [k v] Hkv. apply list_elem_of_In in Hkv.
    destruct (Hall k v Hkv) as (v' & Hp & Heq). simpl. by rewrite Hp.
Qed.

Lemma elem_of_List_filter {A : Type} (p : A → bool) (l : list A) (x : A) :
  x ∈ List.filter p l ↔ x ∈ l ∧ p x = true.
Proof. by rewrite list_elem_of_In, filter_In, <- list_elem_of_In. Qed.

(** X15. [getAll] returns only descriptors of the full list, and exactly
    those whose properties are identical to every pair of [where] and
    that pass [filter]; a [where] that holds no pair selects nothing; an
    [iteratee] changes the order and nothing else. *)
Theorem getAll_membership (e : env) (options : getAllOptions) (g : genre) :
  g ∈ Genres.getAll e options ↔
    g ∈ Genres.getAll e noOptions ∧
    (∀ attrs, opt_where options = Some attrs →
       attrs ≠ [] ∧
       ∀ k v, (k, v) ∈ attrs →
         ∃ v', genre_prop g k = Some v' ∧ strict_eqb v v' = true) ∧
    (∀ p, opt_filter options = Some p → p g = true).
Proof.
  destruct options as [w p f]. unfold Genres.getAll, noOptions.
  cbn [opt_where opt_filter opt_iteratee].
  set (all := (GExtra <$> extraGenres) ++ (GCategory <$> Categories e)).
  set (byWhere := match w with
                  | Some attrs => where_ all attrs
                  | None => all
                  end).
  set (byFilter := match p with
                   | Some p0 => List.filter p0 byWhere
                   | None => byWhere
                   end).
  assert (g ∈ byWhere ↔
          g ∈ all ∧ ∀ attrs, w = Some attrs →
            attrs ≠ [] ∧
            ∀ k v, (k, v) ∈ attrs →
              ∃ v', genre_prop g k = Some v' ∧ strict_eqb v v' = true) as Hw.
  { unfold byWhere. destruct w as [attrs|].
    - rewrite elem_of_where. split.
      + intros (? & ? & ?). split; [done|]. by intros ? [= <-].
      + intros [? Hall]. destruct (Hall attrs eq_refl). done.
    - split; [by intros ?; split|by intros [? _]]. }
  assert (g ∈ byFilter ↔ g ∈ byWhere ∧ ∀ p0, p = Some p0 → p0 g = true) as Hp.
  { unfold byFilter. destruct p as [p0|].
    - rewrite elem_of_List_filter. split; intros [? Hg]; (split; [done|]).
      + by intros ? [= <-].
      + by apply Hg.
    - split; [by intros ?; split|by intros [? _]]. }
  assert (g ∈ match f with
              | Some iteratee => sortBy byFilter iteratee
              | None => byFilter
              end ↔ g ∈ byFilter) as ->.
  { destruct f; [by rewrite sortBy_perm|done]. }
  rewrite Hp, Hw. tauto.
Qed.

(** [getAll({where: {}})] lists nothing. *)
Example getAll_where_empty (e : env) :
  Genres.getAll e {| opt_where := Some []; opt_filter := None;
                     opt_iteratee := None |} = [].
Proof. reflexivity. Qed.

Lemma getAll_noOptions (e : env) :
  Genres.getAll e noOptions =
    (GExtra <$> extraGenres) ++ (GCategory <$> Categories e).
Proof. reflexivity. Qed.

(** X16. [getOne] and [getAll] agree on which names exist: a descriptor
    that [getOne] returns bears the name asked for and is one of those
    that [getAll()] lists, and [getOne] returns nothing exactly when
    [getAll()] lists no descriptor of that name. *)
Theorem getOne_in_getAll (e : env) (name : string) :
  (∀ g, Genres.getOne e name = Some g →
     g ∈ Genres.getAll e noOptions ∧ genre_name g = name) ∧
  (Genres.getOne e name = None ↔
     ∀ g, g ∈ Genres.getAll e noOptions → genre_name g ≠ name).
Proof.
  rewrite getAll_noOptions.
  unfold Genres.getOne, Categories_findOne, findWhere_name. split.
  - intros g Hget.
    destruct (find _ (Categories e)) as [c|] eqn:Hc.
    + injection Hget as <-. apply find_name_Some in Hc as [Hin Hname].
      split; [|done]. apply elem_of_app. right. by apply list_elem_of_fmap_2.
    + destruct (find _ extraGenres) as [x|] eqn:Hx; [|done].
      simpl in Hget. injection Hget as <-.
      apply find_name_Some in Hx as [Hin Hname].
      split; [|done]. apply elem_of_app. left. by apply list_elem_of_fmap_2.
  - split.
    + intros Hnone g Hin.
      destruct (find _ (Categories e)) as [c|] eqn:Hc; [done|].
      destruct (find _ extraGenres) as [x|] eqn:Hx; [done|].
      pose proof (proj1 (find_name_None cat_name _ _) Hc) as Hc'.
      pose proof (proj1 (find_name_None eg_name _ _) Hx) as Hx'.
      apply elem_of_app in Hin as [Hin|Hin];
        apply list_elem_of_fmap in Hin as (y & -> & Hy); simpl.
      * by apply Hx'.
      * by apply Hc'.
    + intros Hall.
      destruct (find _ (Categories e)) as [c|] eqn:Hc.
      { apply find_name_Some in Hc as [Hin Hname].
        destruct (Hall (GCategory c)); [|done].
        apply elem_of_app. right. by apply list_elem_of_fmap_2. }
      destruct (find _ extraGenres) as [x|] eqn:Hx; [|done].
      apply find_name_Some in Hx as [Hin Hname].
      destruct (Hall (GExtra x)); [|done].
      apply elem_of_app. left. by apply list_elem_of_fmap_2.
Qed.

(** ** [getPopulated] *)

(** Whether [findOneIn] finds a document depends on the store through
    the content of the selector only, and not on the options. *)
Lemma findOneIn_answer (e : env) (name : string) (selector options : jsarg)
    (context : context) (s : store) :
  arg_ok s selector → arg_ok s options →
  bool_decide (is_Some (Genres.findOneIn e name selector options context s).1) =
    bool_decide (is_Some (answer e name context (supplied s selector))).
Proof.
  intros Hsel Hopt. apply bool_decide_ext. unfold answer.
  destruct (Categories_findOne e name) as [c|] eqn:Hc.
  - destruct (category_branch_store s selector options c Hsel Hopt)
      as (l & s1 & lo & s2 & E1 & E2 & Hl & _).
    rewrite (findOneIn_category _ _ _ _ _ _ c) by done.
    rewrite E1, E2. cbn [fst]. rewrite Hl. apply head_find_docs.
  - destruct (findWhere_name extraGenres name) as [g|] eqn:Hg.
    + destruct (extra_branch e name selector options context s g Hc Hg
                  Hsel Hopt) as (ls & lo & s1 & _ & Hone & _).
      cbv zeta in Hone. rewrite Hone. cbn [fst]. apply head_find_docs.
    + unfold Genres.findOneIn. rewrite Hc, Hg. unfold mbind, St_bind.
      destruct (or_empty selector s) as [l s1].
      by destruct (or_empty options s1) as [lo s2].
Qed.

(** What [findOneIn] does to the store: objects other than the selector
    are kept, and the selector object is kept or, for the name of a
    category, receives the category. *)
Lemma findOneIn_store (e : env) (name : string) (selector options : jsarg)
    (context : context) (s : store) :
  arg_ok s selector → arg_ok s options →
  let s' := (Genres.findOneIn e name selector options context s).2 in
  (∀ i o, s !! i = Some o → selector ≠ Ref i → s' !! i = Some o) ∧
  (∀ l F, selector = Ref l → s !! l = Some F →
     s' !! l = Some match Categories_findOne e name with
                    | Some c => <["categories" := VStr (cat_name c)]> F
                    | None => F
                    end).
Proof.
  intros Hsel Hopt s'. unfold s'.
  destruct (Categories_findOne e name) as [c|] eqn:Hc.
  - destruct (category_branch_store s selector options c Hsel Hopt)
      as (l & s1 & lo & s2 & E1 & E2 & Hl & Hsame & Hother).
    rewrite (findOneIn_category _ _ _ _ _ _ c) by done.
    rewrite E1, E2. cbn [snd]. split.
    + intros i o Hi Hne. by apply Hother.
    + intros l' F -> HF. specialize (Hsame l' eq_refl) as ->.
      unfold supplied in Hl. simpl in Hl. rewrite HF in Hl. exact Hl.
  - destruct (findWhere_name extraGenres name) as [g|] eqn:Hg.
    + destruct (extra_branch e name selector options context s g Hc Hg
                  Hsel Hopt) as (ls & lo & s1 & _ & Hone & _ & _ & Hkeep & _).
      cbv zeta in Hone. rewrite Hone. cbn [snd].
      split; [intros i o Hi _; by apply Hkeep|].
      intros l F _ HF. by apply Hkeep.
    + unfold Genres.findOneIn. rewrite Hc, Hg.
      destruct (or_empty_spec s selector Hsel)
        as (l & s1 & E1 & _ & Hkeep1 & _ & _).
      assert (arg_ok s1 options) as Hopt1.
      { destruct options as [| |i]; simpl in *; try done.
        destruct Hopt as [o Ho]. exists o. by apply Hkeep1. }
      destruct (or_empty_spec s1 options Hopt1)
        as (lo & s2 & E2 & _ & Hkeep2 & _ & _).
      unfold mbind, St_bind. rewrite E1, E2. simpl.
      split; [intros i o Hi _|intros l' F _ Hi]; by apply Hkeep2, Hkeep1.
Qed.

Lemma filterSt_app {A : Type} (predicate : A → St bool) (l1 l2 : list A)
    (s : store) :
  Genres.filterSt predicate (l1 ++ l2) s =
    let '(r1, s1) := Genres.filterSt predicate l1 s in
    let '(r2, s2) := Genres.filterSt predicate l2 s1 in
    (r1 ++ r2, s2).
Proof.
  revert s. induction l1 as [|x l1 IH]; intros s; simpl.
  - unfold mret, St_ret. by destruct (Genres.filterSt predicate l2 s).
  - unfold mbind, St_bind, mret, St_ret. destruct (predicate x s) as [b s0].
    rewrite IH. destruct (Genres.filterSt predicate l1 s0) as [r1 s1].
    destruct (Genres.filterSt predicate l2 s1) as [r2 s2].
    by destruct b.
Qed.

(** [filterSt] under an invariant of the store that fixes the answers of
    the predicate. *)
Lemma filterSt_invariant {A : Type} (Inv : store → Prop)
    (predicate : A → St bool) (test : A → bool) (l : list A) (s : store) :
  (∀ x s, x ∈ l → Inv s →
     (predicate x s).1 = test x ∧ Inv (predicate x s).2) →
  Inv s →
  (Genres.filterSt predicate l s).1 = List.filter test l ∧
  Inv (Genres.filterSt predicate l s).2.
Proof.
  revert s. induction l as [|x l IH]; intros s Hstep Hs; simpl; [done|].
  unfold mbind, St_bind.
  destruct (Hstep x s (list_elem_of_here _ _) Hs) as [Hx Hs0].
  destruct (predicate x s) as [b s0]. simpl in Hx, Hs0. subst b.
  destruct (IH s0) as [Hr Hs1]; [|done|].
  { intros y s1 Hy. apply Hstep. by apply list_elem_of_further. }
  destruct (Genres.filterSt predicate l s0) as [r s1]. simpl in *.
  subst r. by destruct (test x).
Qed.

Lemma populated_answer (e : env) (selector findOptions : jsarg)
    (context : context) (s : store) (g : genre) :
  arg_ok s selector → arg_ok s findOptions →
  populated e selector findOptions context s g =
    bool_decide (is_Some (answer e (genre_name g) context (supplied s selector))).
Proof.
  intros Hsel Hopt. unfold populated. by apply findOneIn_answer.
Qed.

Lemma populatedTest_eq (e : env) (selector findOptions : jsarg)
    (context : context) (g : genre) (s : store) :
  populatedTest e selector findOptions context g s =
    (bool_decide (is_Some
       (Genres.findOneIn e (genre_name g) selector findOptions context s).1),
     (Genres.findOneIn e (genre_name g) selector findOptions context s).2).
Proof.
  unfold populatedTest, mbind, St_bind, mret, St_ret.
  by destruct (Genres.findOneIn _ _ _ _ _ _).
Qed.

(** X17. Called without a selector object, [getPopulated] tests every
    genre on an empty selector of its own: the result is the list of
    [getAll] filtered by the test each genre passes when it is asked
    alone, whatever the order, and no object of the caller changes. *)
Theorem getPopulated_without_selector (e : env) (selector : jsarg)
    (options : getAllOptions) (findOptions : jsarg) (context : context)
    (s : store) :
  selector = Undefined ∨ selector = Null →
  arg_ok s findOptions →
  (Genres.getPopulated e selector options findOptions context s).1 =
    List.filter (populated e selector findOptions context s)
      (Genres.getAll e options) ∧
  (∀ i o, s !! i = Some o →
     (Genres.getPopulated e selector options findOptions context s).2 !! i
       = Some o).
Proof.
  intros Hsel Hopt.
  assert (∀ s', arg_ok s' selector) as Hok by (by destruct Hsel as [-> | ->]).
  assert (∀ s', supplied s' selector = ∅) as Hsup
    by (by destruct Hsel as [-> | ->]).
  assert (∀ i, selector ≠ Ref i) as Hne by (by destruct Hsel as [-> | ->]).
  destruct (filterSt_invariant
              (λ s', arg_ok s' findOptions ∧
                     ∀ i o, s !! i = Some o → s' !! i = Some o)
              (populatedTest e selector findOptions context)
              (populated e selector findOptions context s)
              (Genres.getAll e options) s) as [Hres [_ Hkeep]]; [|done|done].
  intros g s' _ [Hopt' Hkeep']. rewrite populatedTest_eq. cbn [fst snd].
  destruct (findOneIn_store e (genre_name g) selector findOptions context s'
              (Hok s') Hopt') as [Hframe _].
  split.
  - rewrite populated_answer, findOneIn_answer by done.
    by rewrite !Hsup.
  - split.
    + destruct findOptions as [| |i]; simpl in *; try done.
      destruct Hopt' as [o Ho]. exists o. by apply Hframe.
    + intros i o Hi. apply Hframe; [by apply Hkeep'|done].
Qed.

Lemma getPopulated_without_selector_witness :
  (Genres.getPopulated Demo.server Undefined noOptions Undefined noContext []).1 =
    List.filter (populated Demo.server Undefined Undefined noContext [])
      (Genres.getAll Demo.server noOptions) ∧
  (∀ i o, ([] : store) !! i = Some o →
     (Genres.getPopulated Demo.server Undefined noOptions Undefined noContext
        []).2 !! i = Some o).
Proof.
  apply (getPopulated_without_selector Demo.server Undefined noOptions Undefined
           noContext []); [by left | exact I].
Defined.

Lemma List_filter_fmap {A B : Type} (f : A → B) (p : B → bool) (l : list A) :
  List.filter p (f <$> l) = f <$> List.filter (λ x, p (f x)) l.
Proof.
  induction l as [|x l IH]; [done|].
  rewrite fmap_cons. cbn [List.filter].
  destruct (p (f x)); by rewrite ?fmap_cons, IH.
Qed.

(** Without an [iteratee], [getAll] lists extra genres, then
    categories. *)
Lemma getAll_extras_first (e : env) (options : getAllOptions) :
  opt_iteratee options = None →
  ∃ xs cs,
    Genres.getAll e options = (GExtra <$> xs) ++ (GCategory <$> cs) ∧
    (∀ x, x ∈ xs → x ∈ extraGenres) ∧
    (∀ c, c ∈ cs → c ∈ Categories e).
Proof.
  destruct options as [w p f]. simpl. intros ->.
  unfold Genres.getAll. cbn [opt_where opt_filter opt_iteratee].
  assert (∀ q : genre → bool,
            ∃ xs cs,
              List.filter q ((GExtra <$> extraGenres) ++ (GCategory <$> Categories e))
                = (GExtra <$> xs) ++ (GCategory <$> cs) ∧
              (∀ x, x ∈ xs → x ∈ extraGenres) ∧
              (∀ c, c ∈ cs → c ∈ Categories e)) as Hq.
  { intros q. rewrite List.filter_app, !List_filter_fmap.
    eexists _, _. split; [reflexivity|].
    split; intros y Hy; by apply elem_of_List_filter in Hy as [? _]. }
  assert (∀ (q : genre → bool) xs cs,
            (∀ x, x ∈ xs → x ∈ extraGenres) →
            (∀ c, c ∈ cs → c ∈ Categories e) →
            ∃ xs' cs',
              List.filter q ((GExtra <$> xs) ++ (GCategory <$> cs))
                = (GExtra <$> xs') ++ (GCategory <$> cs') ∧
              (∀ x, x ∈ xs' → x ∈ extraGenres) ∧
              (∀ c, c ∈ cs' → c ∈ Categories e)) as Hq2.
  { intros q xs cs Hxs Hcs. rewrite List.filter_app, !List_filter_fmap.
    eexists _, _. split; [reflexivity|].
    split; intros y Hy; apply elem_of_List_filter in Hy as [? _]; auto. }
  assert (∀ attrs,
            ∃ xs cs,
              where_ ((GExtra <$> extraGenres) ++ (GCategory <$> Categories e))
                attrs = (GExtra <$> xs) ++ (GCategory <$> cs) ∧
              (∀ x, x ∈ xs → x ∈ extraGenres) ∧
              (∀ c, c ∈ cs → c ∈ Categories e)) as Hw.
  { intros [|kv attrs].
    - exists [], []. split; [done|]. split; by intros ? ?%elem_of_nil.
    - unfold where_. apply Hq. }
  destruct w as [attrs|], p as [p0|].
  - destruct (Hw attrs) as (xs & cs & -> & Hxs & Hcs). by apply Hq2.
  - apply Hw.
  - apply Hq.
  - exists extraGenres, (Categories e). by split.
Qed.

Lemma insert_categories_agree (F Fk : obj) (v : value) :
  delete "categories" Fk = delete "categories" F →
  <["categories" := v]> Fk = <["categories" := v]> F.
Proof.
  intros Heq.
  by rewrite <- (insert_delete_eq Fk), <- (insert_delete_eq F), Heq.
Qed.

Section getPopulated_with_selector.
Context (e : env) (l : nat) (F : obj) (findOptions : jsarg) (context : context)
  (s : store).
Hypothesis selector_object : s !! l = Some F.
Hypothesis options_ok : arg_ok s findOptions.
Hypothesis no_collision :
  ∀ c x, c ∈ Categories e → x ∈ extraGenres → cat_name c ≠ eg_name x.

Lemma running_start : running s l F findOptions true s.
Proof. split; [by exists F|]. by split. Qed.

Lemma running_weaken (s' : store) :
  running s l F findOptions true s' → running s l F findOptions false s'.
Proof. intros [(Fk & Hl & ->) ?]. split; [by exists F|done]. Qed.

Lemma running_step (exact : bool) (g : genre) (s' : store) :
  running s l F findOptions exact s' →
  (∀ x, g = GExtra x → x ∈ extraGenres ∧ exact = true) →
  (∀ c, g = GCategory c → c ∈ Categories e ∧ exact = false) →
  (populatedTest e (Ref l) findOptions context g s').1 =
    populated e (Ref l) findOptions context s g ∧
  running s l F findOptions exact
    (populatedTest e (Ref l) findOptions context g s').2 ∧
  (∀ c, g = GCategory c →
     (populatedTest e (Ref l) findOptions context g s').2 !! l =
       Some (<["categories" := VStr (cat_name c)]> F)).
Proof.
  intros [(Fk & Hl & HFk) [Hopt Hkeep]] Hx Hcat.
  assert (arg_ok s (Ref l)) as Hsel0 by (by exists F).
  assert (arg_ok s' (Ref l)) as Hsel by (by exists Fk).
  rewrite populatedTest_eq. cbn [fst snd].
  rewrite populated_answer, findOneIn_answer by done.
  destruct (findOneIn_store e (genre_name g) (Ref l) findOptions context s'
              Hsel Hopt) as [Hframe Hcontent].
  specialize (Hcontent l Fk eq_refl Hl).
  unfold supplied. simpl. rewrite Hl, selector_object. simpl.
  assert (∀ F', s' !! l = Some Fk →
            (Genres.findOneIn e (genre_name g) (Ref l) findOptions context s').2
              !! l = Some F' →
            arg_ok (Genres.findOneIn e (genre_name g) (Ref l) findOptions
                      context s').2 findOptions ∧
            (∀ i o, i ≠ l → s !! i = Some o →
               (Genres.findOneIn e (genre_name g) (Ref l) findOptions
                  context s').2 !! i = Some o)) as Hrest.
  { intros F' _ HF'. split.
    - destruct findOptions as [| |i]; simpl in *; try done.
      destruct (decide (i = l)) as [->|Hne]; [by eexists|].
      destruct Hopt as [o Ho]. exists o. apply Hframe; [done|].
      by intros [= ->].
    - intros i o Hne Hi. apply Hframe; [by apply Hkeep|]. by intros [= ->]. }
  destruct g as [x|c]; simpl in *.
  - destruct (Hx x eq_refl) as [Hin ->]. subst Fk.
    assert (Categories_findOne e (eg_name x) = None) as Hnone.
    { apply (find_name_None cat_name). intros c Hc. by apply no_collision. }
    rewrite Hnone in Hcontent.
    split; [done|]. split; [|done].
    split; [by exists F|]. by apply (Hrest F).
  - destruct (Hcat c eq_refl) as [Hc ->].
    destruct (find_name_elem cat_name (Categories e) c Hc)
      as (c' & Hfind & Hname).
    fold (Categories_findOne e (cat_name c)) in Hfind.
    rewrite Hfind in Hcontent. unfold answer. rewrite Hfind.
    rewrite (insert_categories_agree F Fk _ HFk) in *.
    split; [done|]. split.
    + split.
      * eexists. split; [exact Hcontent|]. by rewrite !delete_insert_eq.
      * by apply (Hrest _ Hl Hcontent).
    + intros c0 [= <-]. rewrite Hname in Hcontent. exact Hcontent.
Qed.

Lemma extras_phase (xs : list extraGenre) (s' : store) :
  running s l F findOptions true s' →
  (∀ x, x ∈ xs → x ∈ extraGenres) →
  (Genres.filterSt (populatedTest e (Ref l) findOptions context)
     (GExtra <$> xs) s').1 =
    List.filter (populated e (Ref l) findOptions context s) (GExtra <$> xs) ∧
  running s l F findOptions true
    (Genres.filterSt (populatedTest e (Ref l) findOptions context)
       (GExtra <$> xs) s').2.
Proof.
  intros Hrun Hxs. apply filterSt_invariant; [|done].
  intros g s1 Hg Hs1. apply list_elem_of_fmap in Hg as (x & -> & Hx).
  destruct (running_step true (GExtra x) s1 Hs1) as (? & ? & _); [| |done].
  - intros ? [= <-]. split; [by apply Hxs|done].
  - by intros ? [=].
Qed.

Lemma categories_phase (cs : list category) (s' : store) :
  running s l F findOptions false s' →
  (∀ c, c ∈ cs → c ∈ Categories e) →
  (Genres.filterSt (populatedTest e (Ref l) findOptions context)
     (GCategory <$> cs) s').1 =
    List.filter (populated e (Ref l) findOptions context s) (GCategory <$> cs) ∧
  running s l F findOptions false
    (Genres.filterSt (populatedTest e (Ref l) findOptions context)
       (GCategory <$> cs) s').2.
Proof.
  intros Hrun Hcs. apply filterSt_invariant; [|done].
  intros g s1 Hg Hs1. apply list_elem_of_fmap in Hg as (c & -> & Hc).
  destruct (running_step false (GCategory c) s1 Hs1) as (? & ? & _); [| |done].
  - by intros ? [=].
  - intros ? [= <-]. split; [by apply Hcs|done].
Qed.

Lemma categories_final (cs : list category) (s' : store) :
  running s l F findOptions false s' →
  (∀ c, c ∈ cs → c ∈ Categories e) →
  match last cs with
  | Some c =>
      (Genres.filterSt (populatedTest e (Ref l) findOptions context)
         (GCategory <$> cs) s').2 !! l =
        Some (<["categories" := VStr (cat_name c)]> F)
  | None =>
      (Genres.filterSt (populatedTest e (Ref l) findOptions context)
         (GCategory <$> cs) s').2 = s'
  end.
Proof.
  revert s'. induction cs as [|c cs IH]; intros s' Hrun Hcs; [done|].
  rewrite fmap_cons. cbn [Genres.filterSt]. unfold mbind, St_bind.
  destruct (running_step false (GCategory c) s' Hrun) as (_ & Hrun1 & Hl1).
  { by intros ? [=]. }
  { intros ? [= <-]. split; [|done]. apply Hcs, list_elem_of_here. }
  specialize (Hl1 c eq_refl).
  destruct (populatedTest e (Ref l) findOptions context (GCategory c) s')
    as [b s1]. cbn [snd] in Hrun1, Hl1.
  specialize (IH s1 Hrun1).
  destruct (Genres.filterSt (populatedTest e (Ref l) findOptions context)
              (GCategory <$> cs) s1) as [r s2] eqn:E.
  unfold mret, St_ret. cbn [snd] in *. rewrite last_cons.
  destruct (last cs) as [c2|].
  - apply IH. intros c0 Hc0. by apply Hcs, list_elem_of_further.
  - rewrite IH; [done|]. intros c0 Hc0. by apply Hcs, list_elem_of_further.
Qed.

End getPopulated_with_selector.

Lemma getPopulated_phases (e : env) (l : nat) (F : obj)
    (options : getAllOptions) (findOptions : jsarg) (context : context)
    (s : store) :
  opt_iteratee options = None →
  (∀ c x, c ∈ Categories e → x ∈ extraGenres → cat_name c ≠ eg_name x) →
  s !! l = Some F →
  arg_ok s findOptions →
  (Genres.getPopulated e (Ref l) options findOptions context s).1 =
    List.filter (populated e (Ref l) findOptions context s)
      (Genres.getAll e options) ∧
  (Genres.getPopulated e (Ref l) options findOptions context s).2 !! l =
    Some match last (Genres.getAll e options) with
         | Some (GCategory c) => <["categories" := VStr (cat_name c)]> F
         | _ => F
         end ∧
  (∀ i o, i ≠ l → s !! i = Some o →
     (Genres.getPopulated e (Ref l) options findOptions context s).2 !! i
       = Some o).
Proof.
  intros Hit Hnc Hl Hopt.
  destruct (getAll_extras_first e options Hit) as (xs & cs & Hall & Hxs & Hcs).
  change (Genres.getPopulated e (Ref l) options findOptions context s)
    with (Genres.filterSt (populatedTest e (Ref l) findOptions context)
            (Genres.getAll e options) s).
  rewrite Hall, filterSt_app, List.filter_app.
  pose proof (running_start l F findOptions s Hl Hopt) as Hrun0.
  destruct (extras_phase e l F findOptions context s Hl Hopt Hnc xs s Hrun0 Hxs)
    as [Hr1 Hrun1].
  destruct (Genres.filterSt (populatedTest e (Ref l) findOptions context)
              (GExtra <$> xs) s) as [r1 s1]. cbn [fst snd] in Hr1, Hrun1.
  pose proof (running_weaken l F findOptions s s1 Hrun1) as Hrun1'.
  destruct (categories_phase e l F findOptions context s Hl Hopt Hnc cs s1
              Hrun1' Hcs) as [Hr2 Hrun2].
  pose proof (categories_final e l F findOptions context s Hl Hopt Hnc cs s1
                Hrun1' Hcs) as Hfinal.
  destruct (Genres.filterSt (populatedTest e (Ref l) findOptions context)
              (GCategory <$> cs) s1) as [r2 s2].
  cbn [fst snd] in *. subst r1 r2. split; [done|]. split.
  - rewrite last_app, !fmap_last.
    destruct (last cs) as [c|]; simpl; [done|]. subst s2.
    destruct Hrun1 as [(Fk & Hl1 & ->) _].
    by destruct (last xs).
  - by destruct Hrun2 as (_ & _ & Hkeep).
Qed.


(** X18. Called with a selector object and no [iteratee], where no
    category bears the name of an extra genre, [getPopulated] returns the
    list of [getAll] filtered by the test each genre passes when it is
    asked alone with the selector as the caller built it. The selector
    object ends with [categories] set to the name of the last category
    tested, if any; every other object is as before. *)
Theorem getPopulated_default_order (e : env) (l : nat) (F : obj)
    (options : getAllOptions) (findOptions : jsarg) (context : context)
    (s : store) :
  opt_iteratee options = None →
  (∀ c x, c ∈ Categories e → x ∈ extraGenres → cat_name c ≠ eg_name x) →
  s !! l = Some F →
  arg_ok s findOptions →
  (Genres.getPopulated e (Ref l) options findOptions context s).1 =
    List.filter (populated e (Ref l) findOptions context s)
      (Genres.getAll e options) ∧
  (Genres.getPopulated e (Ref l) options findOptions context s).2 !! l =
    Some match last (Genres.getAll e options) with
         | Some (GCategory c) => <["categories" := VStr (cat_name c)]> F
         | _ => F
         end ∧
  (∀ i o, i ≠ l → s !! i = Some o →
     (Genres.getPopulated e (Ref l) options findOptions context s).2 !! i
       = Some o).
Proof.
  intros Hit Hnc Hl Hopt.
  destruct (getPopulated_phases e l F options findOptions context s
              Hit Hnc Hl Hopt) as (Hresult & Hselector & Hothers).
  split; [exact Hresult|]. split; [exact Hselector|exact Hothers].
Qed.

Lemma getPopulated_default_order_witness :
  (Genres.getPopulated Demo.server (Ref 0%nat) noOptions (Ref 1%nat) noContext
     Demo.callerStore).1 =
    List.filter (populated Demo.server (Ref 0%nat) (Ref 1%nat) noContext
                   Demo.callerStore)
      (Genres.getAll Demo.server noOptions) ∧
  (Genres.getPopulated Demo.server (Ref 0%nat) noOptions (Ref 1%nat) noContext
     Demo.callerStore).2 !! 0%nat =
    Some match last (Genres.getAll Demo.server noOptions) with
         | Some (GCategory c) =>
             <["categories" := VStr (cat_name c)]>
               {[ "categories" := VStr "Office"; "approved" := VNum 1 ]}
         | _ => {[ "categories" := VStr "Office"; "approved" := VNum 1 ]}
         end ∧
  (∀ i o, i ≠ 0%nat → Demo.callerStore !! i = Some o →
     (Genres.getPopulated Demo.server (Ref 0%nat) noOptions (Ref 1%nat)
        noContext Demo.callerStore).2 !! i = Some o).
Proof.
  apply (getPopulated_default_order Demo.server 0%nat
           {[ "categories" := VStr "Office"; "approved" := VNum 1 ]}
           noOptions (Ref 1%nat) noContext Demo.callerStore).
  - reflexivity.
  - intros c x Hc Hx. apply list_elem_of_In in Hc. simpl in Hc.
    destruct Hc as [<-|[]]. apply list_elem_of_In in Hx. simpl in Hx.
    repeat (destruct Hx as [<-|Hx]; [discriminate|]). destruct Hx.
  - reflexivity.
  - simpl. eexists. reflexivity.
Defined.

(** With a category called "Popular" the extra genre of that name is
    tested through the category branch, which marks the selector object:
    "New", tested next, is then confined to that category and is found
    empty, although it has documents when asked alone. *)
Example getPopulated_after_collision :
  let popular := {| cat_name := "Popular"; cat_fields := ∅ |} in
  let e := {| isClient := false; hasWindow := false; currentUserId := None;
              users := []; Apps := [Demo.chess; Demo.notes];
              Categories := [popular];
              sandstormInstalledApps := VUndefined; routeAuthorId := None;
       Apps_before := Demo.before |} in
  let s : store := [ {[ "approved" := VNum 1 ]} ] in
  genre_name <$> (Genres.getPopulated e (Ref 0%nat) noOptions Undefined
                    noContext s).1
    = ["All"] ∧
  genre_name <$> List.filter (populated e (Ref 0%nat) Undefined noContext s)
                   (Genres.getAll e noOptions)
    = ["All"; "New"; "New & Updated"; "This Week"; "Updates Available";
       "No Updates"; "Apps By Me"].
Proof. split; vm_compute; reflexivity. Qed.

(** ** The cache of populated genres *)

Lemma is_Some_head_run_query (e : env) (sel : obj) :
  is_Some (head (run_query e (Some sel))) ↔
    ∃ a, a ∈ Apps e ∧ doc_matches sel a = true.
Proof.
  rewrite head_is_Some. split.
  - intros Hne. destruct (run_query e (Some sel)) as [|a r] eqn:E; [done|].
    exists a. apply elem_of_run_query. rewrite E. apply list_elem_of_here.
  - intros (a & Ha) E. apply elem_of_run_query in Ha. rewrite E in Ha.
    by apply elem_of_nil in Ha.
Qed.

Lemma doc_matches_approved (approved0 : Z) (a : app) :
  doc_matches {[ "approved" := VNum approved0 ]} a = true ↔
    approved a = approved0.
Proof.
  rewrite <- insert_empty, doc_matches_insert, delete_empty.
  rewrite doc_matches_empty.
  change (app_field a "approved") with (VNum (approved a)). simpl.
  rewrite Z.eqb_eq. split; [by intros [-> _]|by intros ->].
Qed.

Lemma elem_of_genres_extra (xs : list extraGenre) (cs : list category)
    (x : extraGenre) :
  GExtra x ∈ (GExtra <$> xs) ++ (GCategory <$> cs) ↔ x ∈ xs.
Proof.
  rewrite elem_of_app, !list_elem_of_fmap. split.
  - intros [(y & [= ->] & Hy)|(y & [=] & _)]. done.
  - intros Hx. left. by exists x.
Qed.

Lemma elem_of_genres_category (xs : list extraGenre) (cs : list category)
    (c : category) :
  GCategory c ∈ (GExtra <$> xs) ++ (GCategory <$> cs) ↔ c ∈ cs.
Proof.
  rewrite elem_of_app, !list_elem_of_fmap. split.
  - intros [(y & [=] & _)|(y & [= ->] & Hy)]. done.
  - intros Hc. right. by exists c.
Qed.

(** X19. One period of the refresh. On a client nothing happens. On a
    server where no category bears the name of an extra genre, the cache
    receives descriptors of [getAll()] only; a category is cached exactly
    when some approved application carries its name, and "All" exactly
    when some application is approved. No object of the store
    changes. *)
Theorem refresh_caches_populated (e : env) (approved0 : Z) (app : App)
    (s : store) :
  (∀ c x, c ∈ Categories e → x ∈ extraGenres → cat_name c ≠ eg_name x) →
  let r := refreshPopulatedGenres e approved0 app s in
  (isClient e = true → r = (app, s)) ∧
  (isClient e = false →
     (∀ g, g ∈ populatedGenres r.1 → g ∈ Genres.getAll e noOptions) ∧
     (∀ c, GCategory c ∈ populatedGenres r.1 ↔
        c ∈ Categories e ∧
        ∃ a, a ∈ Apps e ∧ approved a = approved0 ∧ cat_name c ∈ categories a) ∧
     (∀ x, eg_name x = "All" →
        (GExtra x ∈ populatedGenres r.1 ↔
         x ∈ extraGenres ∧ ∃ a, a ∈ Apps e ∧ approved a = approved0)) ∧
     (∀ i o, s !! i = Some o → r.2 !! i = Some o)).
Proof.
  intros Hnc r. unfold r, refreshPopulatedGenres, isServer.
  destruct (isClient e); cbn [negb]; (split; [done|]); [done|]. intros _.
  unfold mbind, St_bind, new_object.
  set (F := ({[ "approved" := VNum approved0 ]} : obj)).
  set (s1 := s ++ [F]).
  assert (s1 !! length s = Some F) as Hl by (by apply list_lookup_middle).
  destruct (getPopulated_phases e (length s) F noOptions Undefined noContext s1
              eq_refl Hnc Hl I) as (Hres & _ & Hkeep).
  destruct (Genres.getPopulated e (Ref (length s)) noOptions Undefined
              noContext s1) as [genres s2].
  cbn [fst snd populatedGenres mret St_ret] in *. subst genres.
  assert (arg_ok s1 (Ref (length s))) as Hsel by (by exists F).
  assert (supplied s1 (Ref (length s)) = F) as Hsup.
  { unfold supplied. simpl. by rewrite Hl. }
  split; [|split; [|split]].
  - intros g Hg. by apply elem_of_List_filter in Hg as [? _].
  - intros c. rewrite elem_of_List_filter, getAll_noOptions.
    rewrite elem_of_genres_category.
    rewrite populated_answer, Hsup by done. unfold answer. cbn [genre_name].
    rewrite bool_decide_eq_true.
    assert (c ∈ Categories e →
            (is_Some
               match Categories_findOne e (cat_name c) with
               | Some c0 =>
                   head (run_query e
                           (Some (<["categories" := VStr (cat_name c0)]> F)))
               | None =>
                   match findWhere_name extraGenres (cat_name c) with
                   | Some g =>
                       head (run_query e
                               (Some (extend_obj F
                                        (invoke (eg_selector g) e noContext))))
                   | None => None
                   end
               end ↔
             ∃ a, a ∈ Apps e ∧ approved a = approved0 ∧
                  cat_name c ∈ categories a)) as Hiff; [|tauto].
    intros Hin.
    destruct (find_name_elem cat_name (Categories e) c Hin)
      as (c' & Hfind & Hname).
    fold (Categories_findOne e (cat_name c)) in Hfind.
    rewrite Hfind, Hname, is_Some_head_run_query.
    split; intros (a & Ha & Hrest); exists a; (split; [done|]).
    + apply doc_matches_insert in Hrest as [Hcat Happ]. split.
      * apply doc_matches_approved. unfold F in Happ.
        by rewrite delete_singleton_ne in Happ.
      * change (app_field a "categories")
          with (VArr (VStr <$> categories a)) in Hcat.
        by apply existsb_prim_eqb_str.
    + destruct Hrest as [Happ Hcat]. apply doc_matches_insert. split.
      * change (app_field a "categories") with (VArr (VStr <$> categories a)).
        by apply existsb_prim_eqb_str.
      * unfold F. rewrite delete_singleton_ne by done.
        by apply doc_matches_approved.
  - intros x Hname. rewrite elem_of_List_filter, getAll_noOptions.
    rewrite elem_of_genres_extra.
    rewrite populated_answer, Hsup by done. unfold answer. cbn [genre_name].
    rewrite Hname, bool_decide_eq_true.
    assert (Categories_findOne e "All" = None) as Hnone.
    { apply (find_name_None cat_name). intros c Hc.
      apply (Hnc c {| eg_name := "All"; eg_selector := Static ∅;
                      eg_options := Static ∅; eg_priority := 1;
                      eg_showSummary := false |} Hc). in_extraGenres. }
    rewrite Hnone.
    assert (findWhere_name extraGenres "All" =
              Some {| eg_name := "All"; eg_selector := Static ∅;
                      eg_options := Static ∅; eg_priority := 1;
                      eg_showSummary := false |}) as -> by reflexivity.
    cbn [invoke eg_selector extend_obj]. rewrite (left_id_L ∅ (∪)).
    rewrite is_Some_head_run_query.
    split; intros [Hin (a & Ha & Hm)]; (split; [done|]); exists a;
      (split; [done|]); by apply doc_matches_approved.
  - intros i o Hi. apply Hkeep.
    + apply lookup_lt_Some in Hi. lia.
    + by apply lookup_app_l_Some.
Qed.

Lemma refresh_caches_populated_witness :
  let r := refreshPopulatedGenres Demo.server 1 {| populatedGenres := [] |} [] in
  (isClient Demo.server = true → r = ({| populatedGenres := [] |}, [])) ∧
  (isClient Demo.server = false →
     (∀ g, g ∈ populatedGenres r.1 → g ∈ Genres.getAll Demo.server noOptions) ∧
     (∀ c, GCategory c ∈ populatedGenres r.1 ↔
        c ∈ Categories Demo.server ∧
        ∃ a, a ∈ Apps Demo.server ∧ approved a = 1 ∧
             cat_name c ∈ categories a) ∧
     (∀ x, eg_name x = "All" →
        (GExtra x ∈ populatedGenres r.1 ↔
         x ∈ extraGenres ∧ ∃ a, a ∈ Apps Demo.server ∧ approved a = 1)) ∧
     (∀ i o, ([] : store) !! i = Some o → r.2 !! i = Some o)).
Proof.
  apply (refresh_caches_populated Demo.server 1 {| populatedGenres := [] |} []).
  intros c x Hc Hx. apply list_elem_of_In in Hc. simpl in Hc.
  destruct Hc as [<-|[]]. apply list_elem_of_In in Hx. simpl in Hx.
  repeat (destruct Hx as [<-|Hx]; [discriminate|]). destruct Hx.
Defined.

(** The cache of the demo server after one period. *)
Example refresh_on_demo_server :
  genre_name <$> populatedGenres
    (refreshPopulatedGenres Demo.server 1 {| populatedGenres := [] |} []).1
    = ["All"; "Popular"; "New"; "New & Updated"; "This Week";
       "Updates Available"; "No Updates"; "Apps By Me"; "Games"].
Proof. vm_compute. reflexivity. Qed.

(** ** The upload directive, further *)

Lemma append_inj_l (p a b : string) : p +:+ a = p +:+ b → a = b.
Proof.
  induction p as [|ch p IH]; simpl; [done|]. intros [= H]. by apply IH.
Qed.

(** X20. [authorize] returns [true] exactly for a non-empty user id and
    raises "Login Required" otherwise; it never returns [false]. [key]
    does not look at the login itself: without a user id it would build
    a key under ["images/null_"]. For one user and one time, two files
    get the same key only if they have the same name. *)
Theorem upload_directive_edges (this : imageUploader.invocation) (t : Z)
    (f1 f2 : imageUploader.file) :
  (imageUploader.authorize this = inr true ↔
     ∃ u, imageUploader.userId this = Some u ∧ u ≠ "") ∧
  ((¬ ∃ u, imageUploader.userId this = Some u ∧ u ≠ "") →
     imageUploader.authorize this =
       inl {| imageUploader.error := "Login Required";
              imageUploader.reason := "Please login before posting files" |}) ∧
  imageUploader.authorize this ≠ inr false ∧
  imageUploader.key {| imageUploader.userId := None |} t f1 =
    "images/null_" +:+ pretty t +:+ "_" +:+ imageUploader.name f1 ∧
  (imageUploader.key this t f1 = imageUploader.key this t f2 →
     imageUploader.name f1 = imageUploader.name f2).
Proof.
  assert (imageUploader.key this t f1 = imageUploader.key this t f2 →
          imageUploader.name f1 = imageUploader.name f2) as Hname.
  { unfold imageUploader.key. intros H.
    by apply (append_inj_l "images/"),
      (append_inj_l (imageUploader.to_string (imageUploader.userId this))),
      (append_inj_l "_"), (append_inj_l (pretty t)), (append_inj_l "_") in H. }
  unfold imageUploader.authorize, imageUploader.truthy.
  destruct this as [[u|]]; cbn [imageUploader.userId] in *.
  - destruct (String.eqb_spec u "") as [->|Hne]; cbn [negb].
    + split; [split; [done|by intros (u & [= <-] & ?)]|]. by repeat split.
    + split; [split; [by exists u|done]|].
      split; [intros Hno; destruct Hno; by exists u|]. by repeat split.
  - split; [split; [done|by intros (u & [=] & _)]|]. by repeat split.
Qed.

(** A user id with an underscore can collide with another user's keys. *)
Example upload_key_collision :
  imageUploader.key {| imageUploader.userId := Some "a_1" |} 2
    {| imageUploader.name := "f" |}
  = imageUploader.key {| imageUploader.userId := Some "a" |} 1
      {| imageUploader.name := "2_f" |}.
Proof. vm_compute. reflexivity. Qed.
